(** * TextToEmojis: validation, reaction assignment and permission gating

    A shallow embedding of [src/index.tsx].

    Modelling conventions.
    - A JavaScript string is a Rocq [string]; each [ascii] is one UTF-16
      code unit in the range U+0000..U+00FF, so a code unit is also a code
      point and [for (const char of str)] visits the [ascii]s one by one.
    - [String.prototype.trim] and [String.prototype.toUpperCase] are the
      ECMAScript functions restricted to that range.  The two code units
      whose upper case lies outside it (U+00B5 and U+00FF) are left
      unchanged; neither they nor their images are keys of
      [EMOJI_TEXT_MAPPING], so every function below returns what the
      source returns on them.
    - A JavaScript number that counts something is a [nat]; an array index
      that may be negative is a [Z].
    - An object used as a dictionary with one-character keys is an
      association list in property-creation order; [Object_entries]
      applies the ECMAScript key order (array-index keys first, ascending,
      then the other keys in creation order). *)

From Stdlib Require Import String Ascii List ZArith Lia Bool Arith PeanoNat.
From Stdlib Require Import Sorted Permutation.
Import ListNotations.
Local Open Scope string_scope.
Local Open Scope list_scope.
Local Open Scope nat_scope.

(** ** JavaScript built-ins used by the plugin *)

Module JS.

(** WhiteSpace and LineTerminator code points below U+0100. *)
Definition isWhiteSpace (c : ascii) : bool :=
  let n := nat_of_ascii c in
  (n =? 9) || (n =? 10) || (n =? 11) || (n =? 12) || (n =? 13)
  || (n =? 32) || (n =? 160).

Fixpoint trimStart (s : string) : string :=
  match s with
  | EmptyString => EmptyString
  | String c s' => if isWhiteSpace c then trimStart s' else s
  end.

Definition reverse (s : string) : string :=
  string_of_list_ascii (rev (list_ascii_of_string s)).

Definition trimEnd (s : string) : string := reverse (trimStart (reverse s)).

Definition trim (s : string) : string := trimEnd (trimStart s).

(** ToBoolean on a string: only the empty string is falsy. *)
Definition truthy (s : string) : bool :=
  match s with EmptyString => false | String _ _ => true end.

(** ToBoolean on a possibly undefined string. *)
Definition truthy_opt (v : option string) : bool :=
  match v with None => false | Some s => truthy s end.

(** ToBoolean on a possibly undefined number. *)
Definition truthy_num (v : option nat) : bool :=
  match v with None => false | Some 0 => false | Some (S _) => true end.

(** [toUpperCase] of a one-code-unit string. *)
Definition toUpperCase_char (c : ascii) : string :=
  let n := nat_of_ascii c in
  if (97 <=? n) && (n <=? 122) then String (ascii_of_nat (n - 32)) ""
  else if n =? 223 then "SS"
  else if ((224 <=? n) && (n <=? 246)) || ((248 <=? n) && (n <=? 254))
       then String (ascii_of_nat (n - 32)) ""
  else String c "".

Fixpoint toUpperCase (s : string) : string :=
  match s with
  | EmptyString => EmptyString
  | String c s' => (toUpperCase_char c ++ toUpperCase s')%string
  end.

(** The characters visited by [for (const char of str)]. *)
Definition chars (s : string) : list ascii := list_ascii_of_string s.

(** A one-character string, as [for ... of] hands it to the loop body. *)
Definition str (c : ascii) : string := String c EmptyString.

(** [Array.prototype.join]. *)
Definition join (sep : string) (xs : list string) : string :=
  String.concat sep xs.

(** [Math.max(...xs)]; [None] stands for [-Infinity], the value on no
    arguments. *)
Definition Math_max (xs : list nat) : option nat :=
  match xs with
  | [] => None
  | x :: rest => Some (fold_left Nat.max rest x)
  end.

(** [m > n] for [m] a result of [Math_max]: [-Infinity > n] is false. *)
Definition gt (m : option nat) (n : nat) : bool :=
  match m with None => false | Some v => n <? v end.

(** [xs[i]] for an array and a number that is an integer: [None] is
    [undefined]. *)
Definition at_index {A} (xs : list A) (i : Z) : option A :=
  if (i <? 0)%Z then None else nth_error xs (Z.to_nat i).

(** *** Objects with one-character keys *)

Definition obj := list (ascii * nat).

Fixpoint get (o : obj) (k : ascii) : option nat :=
  match o with
  | [] => None
  | (k', v) :: o' => if Ascii.eqb k' k then Some v else get o' k
  end.

(** [o[k] = v]: an existing property keeps its place, a new one is
    created last. *)
Fixpoint set (o : obj) (k : ascii) (v : nat) : obj :=
  match o with
  | [] => [(k, v)]
  | (k', v') :: o' =>
      if Ascii.eqb k' k then (k', v) :: o' else (k', v') :: set o' k v
  end.

(** [o[k]++] on a property that holds a number. *)
Definition incr (o : obj) (k : ascii) : obj :=
  match get o k with
  | Some v => set o k (S v)
  | None => o
  end.

(** The one-character canonical array indices, ascending. *)
Definition digits : list ascii := chars "0123456789".

Definition isDigit (c : ascii) : bool :=
  existsb (Ascii.eqb c) digits.

Definition has (o : obj) (k : ascii) : bool :=
  match get o k with Some _ => true | None => false end.

(** OrdinaryOwnPropertyKeys: array indices in ascending numeric order,
    then string keys in creation order. *)
Definition ownKeys (o : obj) : list ascii :=
  filter (has o) digits ++ filter (fun k => negb (isDigit k)) (map fst o).

Definition Object_entries (o : obj) : list (ascii * nat) :=
  flat_map (fun k => match get o k with
                     | Some v => [(k, v)]
                     | None => []
                     end) (ownKeys o).

Definition Object_values (o : obj) : list nat :=
  map snd (Object_entries o).

End JS.

(** ** Compiled-in constants *)

(** Character conversion mapping (lines 15-29). *)
Definition EMOJI_TEXT_MAPPING : list (string * string) :=
  [ ("A", "A_"); ("B", "B_"); ("C", "C_"); ("D", "D_"); ("E", "E_");
    ("F", "F_"); ("G", "G_"); ("H", "H_"); ("I", "I_"); ("J", "J_");
    ("K", "K_"); ("L", "L_"); ("M", "M_"); ("N", "N_"); ("O", "O_");
    ("P", "P_"); ("Q", "Q_"); ("R", "R_"); ("S", "S_"); ("T", "T_");
    ("U", "U_"); ("V", "V_"); ("W", "W_"); ("X", "X_"); ("Y", "Y_");
    ("Z", "Z_"); (" ", "Empty_Space_Nothing_Tab"); ("?", "QuestionMark");
    ("!", "ExclamationMark"); ("#", "Hashtag"); ("/", "Slash");
    ("@", "AtSign"); ("$", "DollarSign"); (",", "Comma"); (".", "Dot");
    (":", "Colon"); (")", "RightParentheses"); ("(", "LeftParentheses");
    ("_", "Underscore"); ("*", "Asterisk"); ("1", "Number1One");
    ("2", "Number2Two"); ("3", "Number3Three"); ("4", "Number4Four");
    ("5", "Number5Five"); ("6", "Number6Six"); ("7", "Number7Seven");
    ("8", "Number8Eight"); ("9", "Number9Nine"); ("0", "Number0Zero") ].

(** Property read [table[key]] on a table of strings; no key that reaches
    it is a property of [Object.prototype] (those have seven characters or
    more, an upper-cased character has at most two). *)
Fixpoint lookup (table : list (string * string)) (key : string)
  : option string :=
  match table with
  | [] => None
  | (k, v) :: rest => if String.eqb k key then Some v else lookup rest key
  end.

(** Guild IDs mapping (lines 32-39): registry priority and identifier. *)
Definition GUILD_IDS : list (Z * string) :=
  [ (1%Z, "1339215110685724742");
    (2%Z, "1339264485386621078");
    (3%Z, "1339265921113391226");
    (4%Z, "1339267572931100764");
    (5%Z, "1339268634325024800");
    (6%Z, "1339272089621889195") ].

(** Error messages (lines 42-52). *)
Module ERROR_MESSAGES.
Definition NO_REACT_PERMISSION := "You cannot react in this channel.".
Definition NO_NITRO := "You need Basic Nitro to use external emojis.".
Definition NOT_IN_SERVER :=
  "You are not in one of the required servers. Please join: https://discord.gg/GThkG48YA5".
Definition TOO_MANY_CHARS :=
  "You cannot use the same character more than 6 times.".
Definition NOT_ENOUGH_GUILDS (chars : string) :=
  ("The characters '" ++ chars ++
   "' appear more frequently than your joined guilds. Please join more servers.")%string.
Definition SINGLE_CHAR_LIMIT (char : string) :=
  ("The character '" ++ char ++
   "' appears more frequently than your joined guilds. Please join more servers.")%string.
Definition TOO_MANY_CHARS_TOTAL := "Your text cannot exceed 20 characters.".
Definition INVALID_CHAR :=
  "Your text contains a character that is not permitted.".
Definition EMPTY_TEXT := "Your text cannot be empty.".
End ERROR_MESSAGES.

(** ** Data model *)

Module Emoji.
Record t := mk { name : string; id : string }.
End Emoji.

Module Guild.
Record t := mk { id : string; emojis : list Emoji.t }.
End Guild.

(** ** The dialog: counting and validation (lines 162-210) *)

(** [countCharacters]: the loop body, then the loop. *)
Definition countStep (charCount : JS.obj) (char : ascii) : JS.obj :=
  if JS.truthy_num (JS.get charCount char)
  then JS.incr charCount char
  else JS.set charCount char 1.

Definition countCharacters (str : string) : JS.obj :=
  fold_left countStep (JS.chars str) [].

(** The character loop of [validateText] (lines 183-188): [Some] is the
    early [return]. *)
Fixpoint checkCharacters (cs : list ascii) : option string :=
  match cs with
  | [] => None
  | char :: rest =>
      let upperChar := JS.toUpperCase_char char in
      if negb (JS.truthy_opt (lookup EMOJI_TEXT_MAPPING upperChar))
         && negb (String.eqb upperChar " ")
      then Some ERROR_MESSAGES.INVALID_CHAR
      else checkCharacters rest
  end.

(** [validateText]; [guilds] is the dialog's state variable, read for its
    length only.  [None] is [null]. *)
Definition validateText (guilds : list Guild.t) (input : string)
  : option string :=
  if negb (JS.truthy (JS.trim input)) then Some ERROR_MESSAGES.EMPTY_TEXT
  else if 20 <? String.length input
  then Some ERROR_MESSAGES.TOO_MANY_CHARS_TOTAL
  else
    match checkCharacters (JS.chars input) with
    | Some e => Some e
    | None =>
        let charCount := countCharacters (JS.toUpperCase input) in
        let maxCount := JS.Math_max (JS.Object_values charCount) in
        if JS.gt maxCount 6 then Some ERROR_MESSAGES.TOO_MANY_CHARS
        else if JS.gt maxCount (List.length guilds) then
          let charsExceeding :=
            map (fun e => JS.str (fst e))
                (filter (fun e => List.length guilds <? snd e)
                        (JS.Object_entries charCount)) in
          match charsExceeding with
          | [char] => Some (ERROR_MESSAGES.SINGLE_CHAR_LIMIT char)
          | _ => Some (ERROR_MESSAGES.NOT_ENOUGH_GUILDS
                         (JS.join ", " charsExceeding))
          end
        else None
    end.

(** ** Effects: an append-only history with exceptions *)

Module Message.
Record t := mk { channel_id : string; id : string }.
End Message.

(** What the plugin does to the outside, in order. *)
Inductive event :=
| Put (url : string) (ok : bool)  (* RestAPI.put, awaited; ok = resolved *)
| Get (url : string) (ok : bool)  (* RestAPI.get, awaited; ok = resolved *)
| Sleep (ms : nat)                (* an awaited timer *)
| LogInfo (msg : string)
| LogWarn (msg : string)
| SetProcessing (b : bool)
| SetError (msg : string)
| SetTimeout (ms : nat)           (* a timer that is not awaited *)
| Close
| Notice (message : string)       (* FluxDispatcher NOTICE_CREATE, ERROR *)
| OpenModal (key : string)
| CloseModal (key : string).

(** Normal completion or a thrown exception (a rejected promise, once
    awaited). *)
Inductive completion (A : Type) :=
| Normal (a : A)
| Throw (err : string).
Arguments Normal {A} a.
Arguments Throw {A} err.

(** A computation extends the history and completes. *)
Definition M (A : Type) : Type := list event -> list event * completion A.

Definition ret {A} (a : A) : M A := fun h => (h, Normal a).

Definition bind {A B} (m : M A) (k : A -> M B) : M B :=
  fun h =>
    match m h with
    | (h', Normal a) => k a h'
    | (h', Throw err) => (h', Throw err)
    end.

Definition emit (e : event) : M unit := fun h => (h ++ [e], Normal tt).

Definition throw {A} (err : string) : M A := fun h => (h, Throw err).

(** [try { body } catch (err) { handler }]. *)
Definition try_catch {A} (body : M A) (handler : string -> M A) : M A :=
  fun h =>
    match body h with
    | (h', Normal a) => (h', Normal a)
    | (h', Throw err) => handler err h'
    end.

Declare Scope js_scope.
Delimit Scope js_scope with js.
Notation "x <- m ;; k" := (bind m (fun x => k))
  (at level 61, m at next level, right associativity) : js_scope.
Notation "m ;; k" := (bind m (fun _ => k))
  (at level 61, right associativity) : js_scope.
Local Open Scope js_scope.

(** The remote API: what each request answers, given the history so far.
    [None] and [false] are a rejected request.  A space summary is
    modelled by its identifier. *)
Record Network := mkNetwork {
  put_resolves : list event -> string -> bool;
  get_guilds : list event -> option (list string);
  get_emojis : list event -> string -> option (list Emoji.t)
}.

(** [encodeURIComponent] on code points below U+0100. *)
Module URI.
Definition unreserved (c : ascii) : bool :=
  let n := nat_of_ascii c in
  ((65 <=? n) && (n <=? 90)) || ((97 <=? n) && (n <=? 122))
  || ((48 <=? n) && (n <=? 57))
  || existsb (Ascii.eqb c) (JS.chars "-_.!~*'()").

Definition hexDigit (n : nat) : ascii :=
  nth n (JS.chars "0123456789ABCDEF") "0"%char.

Definition percent (n : nat) : string :=
  String "%" (String (hexDigit (n / 16)) (String (hexDigit (n mod 16)) "")).

Definition encodeChar (c : ascii) : string :=
  let n := nat_of_ascii c in
  if unreserved c then JS.str c
  else if n <? 128 then percent n
  else (percent (192 + n / 64) ++ percent (128 + n mod 64))%string.

Fixpoint encodeURIComponent (s : string) : string :=
  match s with
  | EmptyString => EmptyString
  | String c s' => (encodeChar c ++ encodeURIComponent s')%string
  end.
End URI.

(** ** The dialog: assignment and dispatch (lines 212-274) *)

(** A reaction directive: the locals of a loop iteration that found its
    emoji. *)
Module Directive.
Record t := mk {
  char : ascii;
  usageIndex : nat;
  guildIndex : Z;
  guild : Guild.t;
  emoji : Emoji.t
}.

(** The argument handed to [addReaction] (line 242). *)
Definition emojiRef (d : t) : string :=
  (Emoji.name (emoji d) ++ ":" ++ Emoji.id (emoji d))%string.
End Directive.

(** [Object.entries(GUILD_IDS).find(([_, id]) => id === gid)?.[0]]. *)
Definition registryKey (gid : string) : option Z :=
  option_map fst (find (fun e => String.eqb (snd e) gid) GUILD_IDS).

(** [parseInt(index || "999")]. *)
Definition registryIndex (a : Guild.t) : Z :=
  match registryKey (Guild.id a) with
  | Some i => i
  | None => 999%Z
  end.

(** The comparator of lines 226-230. *)
Definition compareGuilds (a b : Guild.t) : Z :=
  (registryIndex a - registryIndex b)%Z.

(** [Array.prototype.sort] is stable; with this comparator (a difference
    of keys) its result is the stable insertion sort. *)
Fixpoint insertGuild (a : Guild.t) (sorted : list Guild.t) : list Guild.t :=
  match sorted with
  | [] => [a]
  | b :: rest =>
      if (compareGuilds a b <=? 0)%Z then a :: b :: rest
      else b :: insertGuild a rest
  end.

Definition sortGuilds (guilds : list Guild.t) : list Guild.t :=
  fold_right insertGuild [] guilds.

(** [guild.emojis.find((e) => e.name === emojiName)]; an undefined
    [emojiName] equals no name. *)
Definition findEmoji (guild : Guild.t) (emojiName : option string)
  : option Emoji.t :=
  find (fun e => match emojiName with
                 | Some n => String.eqb (Emoji.name e) n
                 | None => false
                 end) (Guild.emojis guild).

(** The state of the loop of lines 231-249; [planned] is a ghost field
    that collects the directives in the order of their calls. *)
Record LoopState := mkLoop {
  charUsageCount : JS.obj;
  planned : list Directive.t
}.

(** Lines 233-236: the guard, then the read. *)
Definition usageOf (counts : JS.obj) (char : ascii) : JS.obj * nat :=
  let counts' :=
    if negb (JS.truthy_num (JS.get counts char))
    then JS.set counts char 0 else counts in
  (counts', match JS.get counts' char with Some n => n | None => 0 end).

(** Line 237. *)
Definition guildIndexOf (usageIndex : nat) (sortedGuilds : list Guild.t)
  : Z :=
  Z.min (Z.of_nat usageIndex) (Z.of_nat (List.length sortedGuilds) - 1).

Definition string_of_option (v : option string) : string :=
  match v with Some s => s | None => "undefined" end.

Section Plugin.

Variable net : Network.

(** [RestAPI.put], awaited. *)
Definition RestAPI_put (url : string) : M unit :=
  fun h =>
    if put_resolves net h url
    then (h ++ [Put url true], Normal tt)
    else (h ++ [Put url false], Throw "HTTPError").

(** [addReaction] (lines 260-274). *)
Definition addReaction (message : Message.t) (emoji : string) : M bool :=
  try_catch
    (let endpoint :=
       ("/channels/" ++ Message.channel_id message ++ "/messages/"
        ++ Message.id message ++ "/reactions/"
        ++ URI.encodeURIComponent emoji ++ "/%40me")%string in
     RestAPI_put
       (endpoint ++ "?location=Message%20Reaction%20Picker&type=0")%string ;;
     ret true)
    (fun error =>
       emit (LogWarn "Failed to add reaction:") ;;
       ret false).

(** One iteration of the loop of lines 232-249.  Reading [emojis] of an
    undefined guild throws. *)
Definition loopBody (message : Message.t) (sortedGuilds : list Guild.t)
    (st : LoopState) (char : ascii) : M LoopState :=
  let '(counts, usageIndex) := usageOf (charUsageCount st) char in
  let guildIndex := guildIndexOf usageIndex sortedGuilds in
  match JS.at_index sortedGuilds guildIndex with
  | None => throw "TypeError"
  | Some guild =>
      let emojiName := lookup EMOJI_TEXT_MAPPING (JS.str char) in
      match findEmoji guild emojiName with
      | Some emoji =>
          let d := Directive.mk char usageIndex guildIndex guild emoji in
          addReaction message (Directive.emojiRef d) ;;
          emit (LogInfo ("Added reaction " ++ Emoji.name emoji
                         ++ " for character " ++ JS.str char)%string) ;;
          emit (Sleep 350) ;;
          ret (mkLoop (JS.incr counts char) (planned st ++ [d]))
      | None =>
          emit (LogWarn ("Could not find emoji "
                         ++ string_of_option emojiName ++ " in guild "
                         ++ Guild.id guild)%string) ;;
          ret (mkLoop (JS.incr counts char) (planned st))
      end
  end.

Fixpoint loop (message : Message.t) (sortedGuilds : list Guild.t)
    (st : LoopState) (cs : list ascii) : M LoopState :=
  match cs with
  | [] => ret st
  | char :: rest =>
      st' <- loopBody message sortedGuilds st char ;;
      loop message sortedGuilds st' rest
  end.

(** Lines 225-249: the sort and the loop.  The counts of line 225 are
    computed and never read. *)
Definition assignAndDispatch (message : Message.t) (guilds : list Guild.t)
    (upperText : string) : M LoopState :=
  let sortedGuilds := sortGuilds guilds in
  loop message sortedGuilds (mkLoop [] []) (JS.chars upperText).

(** [processText] on the dialog state [text], [guilds]. *)
Definition processText (message : Message.t) (guilds : list Guild.t)
    (text : string) : M unit :=
  emit (SetProcessing true) ;;
  let upperText := JS.toUpperCase text in
  let error := validateText guilds upperText in
  if JS.truthy_opt error then
    emit (SetError (string_of_option error)) ;;
    emit (SetTimeout 3000)
  else
    try_catch
      (assignAndDispatch message guilds upperText ;;
       emit Close)
      (fun err =>
         emit (LogWarn "Error processing text:") ;;
         emit (SetError
                 "An error occurred while processing. Please try again.") ;;
         emit (SetTimeout 3000)).

(** *** The plugin object (lines 348-495) *)

(** [RestAPI.get], awaited, at the two endpoints the plugin reads. *)
Definition RestAPI_get_guilds : M (list string) :=
  fun h =>
    match get_guilds net h with
    | Some body => (h ++ [Get "/users/@me/guilds" true], Normal body)
    | None => (h ++ [Get "/users/@me/guilds" false], Throw "HTTPError")
    end.

Definition RestAPI_get_emojis (guildId : string) : M (list Emoji.t) :=
  fun h =>
    let url := ("/guilds/" ++ guildId ++ "/emojis")%string in
    match get_emojis net h guildId with
    | Some body => (h ++ [Get url true], Normal body)
    | None => (h ++ [Get url false], Throw "HTTPError")
    end.

(** [fetchUserGuilds] (lines 405-416). *)
Definition fetchUserGuilds : M (list string) :=
  try_catch
    (body <- RestAPI_get_guilds ;;
     ret body)
    (fun error =>
       emit (LogWarn "Failed to fetch user guilds:") ;;
       ret []).

(** [fetchGuildEmojis] (lines 418-429). *)
Definition fetchGuildEmojis (guildId : string) : M (list Emoji.t) :=
  try_catch
    (body <- RestAPI_get_emojis guildId ;;
     ret body)
    (fun error =>
       emit (LogWarn ("Failed to fetch emojis for guild " ++ guildId
                      ++ ":")%string) ;;
       ret []).

(** The loop of lines 387-395. *)
Fixpoint joinTargetGuilds (targetGuildIds userGuilds : list string)
    (joinedTargetGuilds : list Guild.t) : M (list Guild.t) :=
  match userGuilds with
  | [] => ret joinedTargetGuilds
  | guild :: rest =>
      if existsb (String.eqb guild) targetGuildIds then
        emojis <- fetchGuildEmojis guild ;;
        joinTargetGuilds targetGuildIds rest
          (joinedTargetGuilds ++ [Guild.mk guild emojis])
      else joinTargetGuilds targetGuildIds rest joinedTargetGuilds
  end.

Record PluginState := mkPlugin {
  lastClickTime : Z;
  currentModalKey : option string;
  cachedGuilds : list Guild.t;
  lastGuildCount : nat
}.

(** [getUserGuilds] (lines 371-403); [currentGuildCount] is what the
    host's guild-count module answers ([0] when it is missing). *)
Definition getUserGuilds (currentGuildCount : nat) (this : PluginState)
  : M (list Guild.t * PluginState) :=
  if (0 <? List.length (cachedGuilds this))
     && (currentGuildCount =? lastGuildCount this)
  then
    emit (LogInfo "Using cached guilds as guild count hasn't changed") ;;
    ret (cachedGuilds this, this)
  else
    let this1 := mkPlugin (lastClickTime this) (currentModalKey this)
                   (cachedGuilds this) currentGuildCount in
    try_catch
      (let targetGuildIds := map snd GUILD_IDS in
       userGuilds <- fetchUserGuilds ;;
       joinedTargetGuilds <- joinTargetGuilds targetGuildIds userGuilds [] ;;
       ret (joinedTargetGuilds,
            mkPlugin (lastClickTime this1) (currentModalKey this1)
              joinedTargetGuilds (lastGuildCount this1)))
      (fun error =>
         emit (LogWarn "Failed to get user guilds:") ;;
         ret ([], this1)).

End Plugin.

(** ** Permission gating (lines 73-82, 431-494) *)

Module Channel.
Record t := mk { id : string; isPrivate : bool }.
End Channel.

(** What the host application provides. *)
Record Host := mkHost {
  ChannelStore_getChannel : string -> option Channel.t;
  PermissionStore_can : Z -> Channel.t -> bool;
  USE_EXTERNAL_EMOJIS : Z;
  ADD_REACTIONS : Z
}.

Section Gating.

Variable host : Host.

Definition hasPermission (channelId : string) (permission : Z) : bool :=
  match ChannelStore_getChannel host channelId with
  | None => true
  | Some channel =>
      if Channel.isPrivate channel then true
      else PermissionStore_can host permission channel
  end.

Definition hasExternalEmojiPerms (channelId : string) : bool :=
  hasPermission channelId (USE_EXTERNAL_EMOJIS host).

Definition hasAddReactionsPerms (channelId : string) : bool :=
  hasPermission channelId (ADD_REACTIONS host).

(** The button descriptor; its [onClick] is [onClick] below. *)
Record PopoverButton := mkButton {
  label : string;
  message : Message.t
}.

(** [renderMessagePopoverButton]: [None] is the bare [return]. *)
Definition renderMessagePopoverButton (message : Message.t)
  : option PopoverButton :=
  if negb (hasAddReactionsPerms (Message.channel_id message)) then None
  else Some (mkButton "Text to Emojis" message).

(** The click handler (lines 440-492); [currentTime] is [Date.now()],
    [key] is what [openModal] returns. *)
Definition onClick (message : Message.t) (currentTime : Z) (key : string)
    (this : PluginState) : M PluginState :=
  emit (LogInfo ("Button clicked for message " ++ Message.id message)%string) ;;
  if (currentTime - lastClickTime this <? 250)%Z then
    emit (LogInfo "Button on cooldown, ignoring click") ;;
    ret this
  else
    let this1 := mkPlugin currentTime (currentModalKey this)
                   (cachedGuilds this) (lastGuildCount this) in
    if JS.truthy_opt (currentModalKey this1) then
      emit (LogInfo "Modal already open, closing it") ;;
      emit (CloseModal (string_of_option (currentModalKey this1))) ;;
      ret (mkPlugin (lastClickTime this1) None
             (cachedGuilds this1) (lastGuildCount this1))
    else if negb (hasAddReactionsPerms (Message.channel_id message)) then
      emit (Notice ERROR_MESSAGES.NO_REACT_PERMISSION) ;;
      ret this1
    else if negb (hasExternalEmojiPerms (Message.channel_id message)) then
      emit (Notice ERROR_MESSAGES.NO_NITRO) ;;
      ret this1
    else
      emit (OpenModal key) ;;
      ret (mkPlugin (lastClickTime this1) (Some key)
             (cachedGuilds this1) (lastGuildCount this1)).

End Gating.


(** ** Notions the specification is stated with *)

(** Empty or whitespace-only. *)
Definition blank (input : string) : bool :=
  forallb JS.isWhiteSpace (JS.chars input).

(** [key] is a key of the character map. *)
Definition inAlphabet (key : string) : bool :=
  existsb (fun k => String.eqb k key) (map fst EMOJI_TEXT_MAPPING).

(** A character of the permitted alphabet, case-insensitively. *)
Definition permitted (c : ascii) : bool :=
  inAlphabet (JS.toUpperCase_char c).

Definition occurrences (c : ascii) (cs : list ascii) : nat :=
  count_occ ascii_dec cs c.

(** count(c): occurrences of [c] in the upper-cased text. *)
Definition count (c : ascii) (input : string) : nat :=
  occurrences c (JS.chars (JS.toUpperCase input)).

(** Some character of the upper-cased text occurs more than [n] times. *)
Definition someExceeds (n : nat) (input : string) : bool :=
  existsb (fun c => n <? count c input) (JS.chars (JS.toUpperCase input)).

(** The distinct characters, in the order each is first encountered. *)
Fixpoint distinct (cs : list ascii) : list ascii :=
  match cs with
  | [] => []
  | c :: rest => c :: filter (fun c' => negb (Ascii.eqb c' c)) (distinct rest)
  end.

(** The distinct characters in the order the counts are iterated: the
    digits that occur, ascending, then the others as first encountered. *)
Definition entryOrder (cs : list ascii) : list ascii :=
  filter (fun d => existsb (Ascii.eqb d) cs) JS.digits
  ++ filter (fun c => negb (JS.isDigit c)) (distinct cs).

(** The characters that occur more than [n] times, as first encountered. *)
Definition firstEncountered (n : nat) (input : string) : list ascii :=
  filter (fun c => n <? count c input)
         (distinct (JS.chars (JS.toUpperCase input))).

(** The same characters, in the order the counts are iterated. *)
Definition exceeding (n : nat) (input : string) : list ascii :=
  filter (fun c => n <? count c input)
         (entryOrder (JS.chars (JS.toUpperCase input))).

(** The object that holds [f c] under each key [c] of [l], created in the
    order of [l]. *)
Definition tabulate (f : ascii -> nat) (l : list ascii) : JS.obj :=
  map (fun c => (c, f c)) l.

(** The error of the fifth rule for a list of exceeding characters. *)
Definition spaceCountError (cs : list ascii) : string :=
  match cs with
  | [c] => ERROR_MESSAGES.SINGLE_CHAR_LIMIT (JS.str c)
  | _ => ERROR_MESSAGES.NOT_ENOUGH_GUILDS (JS.join ", " (map JS.str cs))
  end.

(** The usage counter of [c]; a missing property counts as [0], which is
    what the guard of line 233 makes of it. *)
Definition usage (counts : JS.obj) (c : ascii) : nat :=
  match JS.get counts c with Some n => n | None => 0 end.

(** The URL [addReaction] requests for an emoji reference. *)
Definition reactionUrl (message : Message.t) (emoji : string) : string :=
  (("/channels/" ++ Message.channel_id message ++ "/messages/"
    ++ Message.id message ++ "/reactions/"
    ++ URI.encodeURIComponent emoji ++ "/%40me")
   ++ "?location=Message%20Reaction%20Picker&type=0")%string.

(** Each character of the text with the number of its earlier
    occurrences: [(c, i)] is the [i]-th occurrence of [c], 0-based. *)
Definition indexed (cs : list ascii) : list (ascii * nat) :=
  map (fun p => let c := nth p cs "000"%char in
                (c, occurrences c (firstn p cs)))
      (seq 0 (List.length cs)).

(** The index of the space for the [i]-th occurrence of a character among
    [k] spaces: [min i (k - 1)]. *)
Definition spaceIndex (spaces : list Guild.t) (i : nat) : nat :=
  Nat.min i (List.length spaces - 1).

(** The directive of the [i]-th occurrence of [c]: the space at
    [spaceIndex], when that space has the emoji of [c]. *)
Definition directiveFor (spaces : list Guild.t) (ci : ascii * nat)
  : list Directive.t :=
  let '(c, i) := ci in
  let idx := spaceIndex spaces i in
  match nth_error spaces idx with
  | Some guild =>
      match findEmoji guild (lookup EMOJI_TEXT_MAPPING (JS.str c)) with
      | Some e => [Directive.mk c i (Z.of_nat idx) guild e]
      | None => []
      end
  | None => []
  end.

(** The plan in the specification's words, left to right. *)
Definition planSpec (spaces : list Guild.t) (cs : list ascii)
  : list Directive.t :=
  flat_map (directiveFor spaces) (indexed cs).

(** What one reaction costs on the wire and in the log. *)
Definition callBlock (message : Message.t) (d : Directive.t) (ok : bool)
  : list event :=
  Put (reactionUrl message (Directive.emojiRef d)) ok
  :: (if ok then [] else [LogWarn "Failed to add reaction:"])
  ++ [LogInfo ("Added reaction " ++ Emoji.name (Directive.emoji d)
               ++ " for character " ++ JS.str (Directive.char d))%string;
      Sleep 350].

(** One iteration of the loop as a step relation: from [st], reading [c],
    to [st'], emitting the events. *)
Inductive iteration (message : Message.t) (spaces : list Guild.t)
    (st : LoopState) (c : ascii) : LoopState -> list event -> Prop :=
| iteration_call guild e ok st' :
    nth_error spaces (spaceIndex spaces (usage (charUsageCount st) c))
    = Some guild ->
    findEmoji guild (lookup EMOJI_TEXT_MAPPING (JS.str c)) = Some e ->
    (forall c', usage (charUsageCount st') c'
                = usage (charUsageCount st) c'
                  + (if Ascii.eqb c c' then 1 else 0)) ->
    planned st'
    = planned st
      ++ [Directive.mk c (usage (charUsageCount st) c)
            (Z.of_nat (spaceIndex spaces (usage (charUsageCount st) c)))
            guild e] ->
    iteration message spaces st c st'
      (callBlock message
         (Directive.mk c (usage (charUsageCount st) c)
            (Z.of_nat (spaceIndex spaces (usage (charUsageCount st) c)))
            guild e) ok)
| iteration_skip guild st' :
    nth_error spaces (spaceIndex spaces (usage (charUsageCount st) c))
    = Some guild ->
    findEmoji guild (lookup EMOJI_TEXT_MAPPING (JS.str c)) = None ->
    (forall c', usage (charUsageCount st') c'
                = usage (charUsageCount st) c'
                  + (if Ascii.eqb c c' then 1 else 0)) ->
    planned st' = planned st ->
    iteration message spaces st c st'
      [LogWarn ("Could not find emoji "
                ++ string_of_option (lookup EMOJI_TEXT_MAPPING (JS.str c))
                ++ " in guild " ++ Guild.id guild)%string].

(** The calls and the pauses of a history, in order. *)
Definition timeline (evs : list event) : list event :=
  filter (fun e => match e with
                   | Put _ _ | Sleep _ => true
                   | _ => false
                   end) evs.

(** The URLs requested with PUT, in order. *)
Definition requests (evs : list event) : list string :=
  flat_map (fun e => match e with Put url _ => [url] | _ => [] end) evs.

(** The number of awaited pauses of [ms] milliseconds. *)
Definition pauses (ms : nat) (evs : list event) : nat :=
  List.length (filter (fun e => match e with
                                | Sleep n => n =? ms
                                | _ => false
                                end) evs).

(** Every rejected request is followed at once by its warning. *)
Definition failuresLogged (evs : list event) : Prop :=
  forall n url,
    nth_error evs n = Some (Put url false) ->
    nth_error evs (S n) = Some (LogWarn "Failed to add reaction:").

(** The call of a directive and the pause after it. *)
Definition callAndPause (message : Message.t) (dk : Directive.t * bool)
  : list event :=
  [Put (reactionUrl message (Directive.emojiRef (fst dk))) (snd dk);
   Sleep 350].

(** Directives for one character come with increasing usage index. *)
Definition ordered (ds : list Directive.t) : Prop :=
  forall i j d1 d2,
    i < j ->
    nth_error ds i = Some d1 ->
    nth_error ds j = Some d2 ->
    Directive.char d1 = Directive.char d2 ->
    Directive.usageIndex d1 < Directive.usageIndex d2.

(** What holds of the loop state after the prefix [pre]. *)
Definition planInvariant (spaces : list Guild.t) (pre : list ascii)
    (st : LoopState) : Prop :=
  (forall c, usage (charUsageCount st) c = occurrences c pre)
  /\ planned st = planSpec spaces pre
  /\ (forall d, In d (planned st) ->
                Directive.usageIndex d < occurrences (Directive.char d) pre)
  /\ ordered (planned st).

(** What holds of the events the loop has emitted so far. *)
Definition traceInvariant (message : Message.t) (st : LoopState)
    (evs : list event) : Prop :=
  (exists oks,
      List.length oks = List.length (planned st)
      /\ timeline evs
         = flat_map (callAndPause message) (combine (planned st) oks))
  /\ requests evs
     = map (fun d => reactionUrl message (Directive.emojiRef d)) (planned st)
  /\ pauses 350 evs = List.length (planned st)
  /\ failuresLogged evs.

(** The directives of a finished run. *)
Definition plannedOf (r : list event * completion LoopState)
  : list Directive.t :=
  match snd r with
  | Normal st => planned st
  | Throw _ => []
  end.

(** A directive as the specification writes it: character, space,
    emoji name. *)
Definition summary (d : Directive.t) : ascii * string * string :=
  (Directive.char d, Guild.id (Directive.guild d),
   Emoji.name (Directive.emoji d)).

(** *** Data for the worked examples *)

(** The registry space of priority [i], with a given emoji catalog. *)
Definition registryGuild (i : Z) (emojis : list Emoji.t) : Guild.t :=
  Guild.mk (match find (fun e => Z.eqb (fst e) i) GUILD_IDS with
            | Some e => snd e
            | None => ""
            end) emojis.

Definition lettersHI : list Emoji.t :=
  [Emoji.mk "H_" "1001"; Emoji.mk "I_" "1002"].

(** All six registry spaces, in priority order, each with both emojis. *)
Definition sixSpaces : list Guild.t :=
  map (fun i => registryGuild i lettersHI) [1; 2; 3; 4; 5; 6]%Z.

Definition twoSpaces : list Guild.t :=
  map (fun i => registryGuild i lettersHI) [1; 2]%Z.

Definition someMessage : Message.t := Message.mk "4001" "5001".

(** A network on which every request resolves, and one on which every
    request is rejected. *)
Definition reliable : Network :=
  mkNetwork (fun _ _ => true) (fun _ => Some []) (fun _ _ => Some []).

Definition unreachable : Network :=
  mkNetwork (fun _ _ => false) (fun _ => None) (fun _ _ => None).

(** A host that knows one channel, a private one, and grants nothing
    elsewhere. *)
Definition directMessagesHost : Host :=
  mkHost (fun channelId =>
            if String.eqb channelId "7001"
            then Some (Channel.mk "7001" true) else None)
         (fun _ _ => false)
         262144 64.

(** ** The rest of the dialog (lines 91-160, 276-346) *)

(** The state of one open dialog. *)
Module Dialog.
Record t := mk {
  text : string;
  error : string;
  processing : bool;
  guilds : list Guild.t;
  loading : bool
}.

(** The initial values of the five [useState] hooks. *)
Definition initial : t := mk "" "" false [] true.
End Dialog.

(** [handleTextChange] (lines 152-155), on the new value of the field. *)
Definition handleTextChange (value : string) (st : Dialog.t) : Dialog.t :=
  Dialog.mk value "" (Dialog.processing st) (Dialog.guilds st)
    (Dialog.loading st).

(** [handleClear] (lines 157-160). *)
Definition handleClear (st : Dialog.t) : Dialog.t :=
  Dialog.mk "" "" (Dialog.processing st) (Dialog.guilds st)
    (Dialog.loading st).

(** The [disabled] attribute of the Confirm button (line 336). *)
Definition confirmDisabled (st : Dialog.t) : bool :=
  Dialog.processing st || Dialog.loading st
  || negb (JS.truthy (JS.trim (Dialog.text st))).

(** The effect that loads the spaces when the dialog mounts (lines
    113-150).  [plugin] is the registered plugin object, when there is
    one; the [finally] block runs on every path. *)
Definition fetchGuilds (net : Network) (plugin : option PluginState)
    (currentGuildCount : nat) (st : Dialog.t)
  : M (Dialog.t * option PluginState) :=
  let st1 := Dialog.mk (Dialog.text st) (Dialog.error st)
               (Dialog.processing st) (Dialog.guilds st) true in
  r <- try_catch
         (match plugin with
          | Some this =>
              r <- getUserGuilds net currentGuildCount this ;;
              if 0 <? List.length (fst r) then
                ret (Dialog.mk (Dialog.text st1) (Dialog.error st1)
                       (Dialog.processing st1) (fst r) (Dialog.loading st1),
                     Some (snd r))
              else
                emit (Notice ERROR_MESSAGES.NOT_IN_SERVER) ;;
                emit Close ;;
                ret (st1, Some (snd r))
          | None => ret (st1, None)
          end)
         (fun error =>
            emit (LogWarn "Error fetching guilds in modal:") ;;
            emit (Notice "Error loading guilds. Please try again.") ;;
            emit Close ;;
            ret (st1, plugin)) ;;
  ret (Dialog.mk (Dialog.text (fst r)) (Dialog.error (fst r))
         (Dialog.processing (fst r)) (Dialog.guilds (fst r)) false,
       snd r).

(** ** The rest of the plugin object (lines 362-369, 482-485) *)

(** [stop]. *)
Definition stop (this : PluginState) : M PluginState :=
  emit (LogInfo "TextToEmojis plugin stopped") ;;
  if JS.truthy_opt (currentModalKey this) then
    emit (CloseModal (string_of_option (currentModalKey this))) ;;
    ret (mkPlugin (lastClickTime this) None (cachedGuilds this)
           (lastGuildCount this))
  else ret this.

(** The [close] callback handed to the dialog opened under [key]. *)
Definition closeDialog (key : string) (this : PluginState) : M PluginState :=
  emit (CloseModal key) ;;
  ret (mkPlugin (lastClickTime this) None (cachedGuilds this)
         (lastGuildCount this)).

(** What can happen to the plugin from outside: a click on the button of
    a message, at a time, with the key [openModal] would hand out; the
    dialog opened under [key] calling its [close], which it may do after
    an awaited run, whether or not it is still open; the plugin being
    stopped. *)
Inductive action :=
| Click (message : Message.t) (currentTime : Z) (key : string)
| DialogCloses (key : string)
| Stop.

Definition perform (host : Host) (a : action) (this : PluginState)
  : M PluginState :=
  match a with
  | Click message currentTime key => onClick host message currentTime key this
  | DialogCloses key => closeDialog key this
  | Stop => stop this
  end.

Fixpoint performAll (host : Host) (actions : list action)
    (this : PluginState) : M PluginState :=
  match actions with
  | [] => ret this
  | a :: rest =>
      this' <- perform host a this ;;
      performAll host rest this'
  end.

(** The dialogs a history leaves open, oldest first, starting from
    [open]. *)
Fixpoint openModals (h : list event) (open : list string) : list string :=
  match h with
  | [] => open
  | OpenModal key :: rest => openModals rest (open ++ [key])
  | CloseModal key :: rest =>
      openModals rest (List.remove string_dec key open)
  | _ :: rest => openModals rest open
  end.

(** Every [close] of the actions comes from a dialog that the history
    so far leaves open. *)
Fixpoint timely (host : Host) (actions : list action) (this : PluginState)
    (h : list event) : Prop :=
  match actions with
  | [] => True
  | a :: rest =>
      match a with
      | DialogCloses key => In key (openModals h [])
      | _ => True
      end
      /\ match perform host a this h with
         | (h', Normal this') => timely host rest this' h'
         | (_, Throw _) => True
         end
  end.

(** The keys handed out by the clicks of a list of actions. *)
Definition clickKeys (actions : list action) : list string :=
  flat_map (fun a => match a with Click _ _ key => [key] | _ => [] end)
           actions.

(** The warning of line 246. *)
Definition isMissingWarning (e : event) : bool :=
  match e with
  | LogWarn msg => String.prefix "Could not find emoji " msg
  | _ => false
  end.

(** The registry priority, as the key of the sort. *)
Definition byPriority (a b : Guild.t) : Prop :=
  (registryIndex a <= registryIndex b)%Z.

(** The spaces of one registry priority, in the order of the list. *)
Definition ofPriority (i : Z) (guilds : list Guild.t) : list Guild.t :=
  filter (fun a => Z.eqb (registryIndex a) i) guilds.

(** The identifiers of the registry. *)
Definition targetGuildIds : list string := map snd GUILD_IDS.

(** The events of the loop: requests, pauses and log lines. *)
Definition isDispatchEvent (e : event) : bool :=
  match e with
  | Put _ _ | Sleep _ | LogInfo _ | LogWarn _ => true
  | _ => false
  end.

(** What the loop has done for a prefix of the text: only requests, pauses
    and log lines, and one directive or one warning per character. *)
Definition accountInvariant (pre : list ascii) (st : LoopState)
    (evs : list event) : Prop :=
  forallb isDispatchEvent evs = true
  /\ List.length (planned st)
     + List.length (filter isMissingWarning evs)
     = List.length pre.

(** The URLs requested with GET, in order. *)
Definition gets (evs : list event) : list string :=
  flat_map (fun e => match e with Get url _ => [url] | _ => [] end) evs.

(** [targetGuildIds.includes(id)]. *)
Definition inRegistry (id : string) : bool :=
  existsb (String.eqb id) targetGuildIds.

(** The catalog endpoint of a space. *)
Definition emojisUrl (guildId : string) : string :=
  ("/guilds/" ++ guildId ++ "/emojis")%string.

(** The events of a directory lookup: requests and log lines. *)
Definition isLookupEvent (e : event) : bool :=
  match e with
  | Get _ _ | LogInfo _ | LogWarn _ => true
  | _ => false
  end.

(** A network on which the user is a member of the first registry space
    only, and every catalog holds [lettersHI]. *)
Definition memberOfFirst : Network :=
  mkNetwork (fun _ _ => true)
            (fun _ => Some ["1339215110685724742"])
            (fun _ _ => Some lettersHI).

(** The plugin object before the first click. *)
Definition freshPlugin : PluginState := mkPlugin 0 None [] 0.

(** The stored handle names exactly the dialogs a history leaves open. *)
Definition handleMatches (this : PluginState) (h : list event) : Prop :=
  openModals h []
  = match currentModalKey this with Some key => [key] | None => [] end
  /\ (currentModalKey this = None
      \/ JS.truthy_opt (currentModalKey this) = true).

(** A host that knows one channel, a public one in which nothing is
    granted. *)
Definition lockedChannelHost : Host :=
  mkHost (fun channelId =>
            if String.eqb channelId "7002"
            then Some (Channel.mk "7002" false) else None)
         (fun _ _ => false)
         262144 64.

(** The dialog state with the loading flag set to [b]. *)
Definition withLoading (b : bool) (st : Dialog.t) : Dialog.t :=
  Dialog.mk (Dialog.text st) (Dialog.error st) (Dialog.processing st)
    (Dialog.guilds st) b.

(** The dialog state with the spaces [r], loaded. *)
Definition withGuilds (r : list Guild.t) (st : Dialog.t) : Dialog.t :=
  Dialog.mk (Dialog.text st) (Dialog.error st) (Dialog.processing st)
    r false.

(** What the membership request leaves in the history, issued after
    [h]. *)
Definition membershipEvents (net : Network) (h : list event) : list event :=
  match get_guilds net h with
  | Some _ => [Get "/users/@me/guilds" true]
  | None => [Get "/users/@me/guilds" false;
             LogWarn "Failed to fetch user guilds:"]
  end.

(** What the catalog request for a space answers and leaves in the
    history, issued after [h]; a rejected request answers no emoji. *)
Definition catalogAnswer (net : Network) (h : list event) (guildId : string)
  : list Emoji.t :=
  match get_emojis net h guildId with Some body => body | None => [] end.

Definition catalogEvents (net : Network) (h : list event) (guildId : string)
  : list event :=
  match get_emojis net h guildId with
  | Some _ => [Get (emojisUrl guildId) true]
  | None => [Get (emojisUrl guildId) false;
             LogWarn ("Failed to fetch emojis for guild " ++ guildId
                      ++ ":")%string]
  end.

(** The spaces obtained, and the events left, by asking for the catalogs
    of [ids] one after the other, starting after [h]. *)
Fixpoint catalogsFrom (net : Network) (ids : list string) (h : list event)
  : list Guild.t * list event :=
  match ids with
  | [] => ([], [])
  | guildId :: rest =>
      let answer := catalogsFrom net rest (h ++ catalogEvents net h guildId) in
      (Guild.mk guildId (catalogAnswer net h guildId) :: fst answer,
       catalogEvents net h guildId ++ snd answer)
  end.

(** * Properties *)

(** ** Built-ins *)

Lemma trimStart_blank s :
  forallb JS.isWhiteSpace (JS.chars (JS.trimStart s))
  = forallb JS.isWhiteSpace (JS.chars s).
Proof.
  induction s as [|c s IH]; simpl; [reflexivity|].
  destruct (JS.isWhiteSpace c) eqn:E; simpl.
  - exact IH.
  - rewrite E. reflexivity.
Qed.

Lemma trimStart_empty s :
  JS.truthy (JS.trimStart s) = negb (blank s).
Proof.
  unfold blank. induction s as [|c s IH]; simpl; [reflexivity|].
  destruct (JS.isWhiteSpace c) eqn:E; simpl; [exact IH | reflexivity].
Qed.

Lemma truthy_reverse s : JS.truthy (JS.reverse s) = JS.truthy s.
Proof.
  unfold JS.reverse. destruct s as [|c s]; simpl; [reflexivity|].
  destruct (rev (list_ascii_of_string s)) eqn:E; reflexivity.
Qed.

Lemma blank_reverse s : blank (JS.reverse s) = blank s.
Proof.
  unfold blank, JS.reverse, JS.chars.
  rewrite list_ascii_of_string_of_list_ascii.
  destruct (forallb JS.isWhiteSpace (list_ascii_of_string s)) eqn:E.
  - rewrite forallb_forall in *. intros x Hx. apply E, in_rev, Hx.
  - destruct (forallb _ (rev _)) eqn:E'; [|reflexivity].
    rewrite <- E. symmetry. rewrite forallb_forall in *.
    intros x Hx. apply E'. rewrite <- in_rev. exact Hx.
Qed.

(** [input.trim()] is falsy exactly on blank input. *)
Lemma truthy_trim s : JS.truthy (JS.trim s) = negb (blank s).
Proof.
  unfold JS.trim, JS.trimEnd.
  rewrite truthy_reverse, trimStart_empty, blank_reverse.
  unfold blank. rewrite trimStart_blank. reflexivity.
Qed.

Lemma gt_Math_max xs n :
  JS.gt (JS.Math_max xs) n = existsb (fun v => n <? v) xs.
Proof.
  destruct xs as [|x rest]; simpl; [reflexivity|].
  revert x. induction rest as [|a rest IH]; intros x; simpl.
  - rewrite orb_false_r. reflexivity.
  - rewrite IH, orb_assoc. f_equal.
    destruct (n <? x) eqn:Ex, (n <? a) eqn:Ea, (n <? Nat.max x a) eqn:Em;
      try reflexivity;
      rewrite ?Nat.ltb_lt, ?Nat.ltb_ge in *; lia.
Qed.

Lemma eqb_ascii_sym (a b : ascii) : Ascii.eqb a b = Ascii.eqb b a.
Proof.
  destruct (Ascii.eqb a b) eqn:E.
  - apply Ascii.eqb_eq in E. subst. symmetry. apply Ascii.eqb_refl.
  - symmetry. apply Ascii.eqb_neq. apply Ascii.eqb_neq in E. congruence.
Qed.

Lemma existsb_eqb_In (c : ascii) cs :
  existsb (Ascii.eqb c) cs = true <-> In c cs.
Proof.
  rewrite existsb_exists. split.
  - intros [x [Hx E]]. apply Ascii.eqb_eq in E. subst. exact Hx.
  - intros H. exists c. split; [exact H | apply Ascii.eqb_refl].
Qed.

Lemma existsb_eqb_notIn (c : ascii) cs :
  existsb (Ascii.eqb c) cs = false <-> ~ In c cs.
Proof.
  rewrite <- existsb_eqb_In. destruct (existsb _ cs); split; congruence.
Qed.

(** Two boolean searches agree when they succeed on the same lists. *)
Lemma bool_ext (a b : bool) : (a = true <-> b = true) -> a = b.
Proof. destruct a, b; intuition congruence. Qed.

(** *** Objects *)

Lemma get_set o k v k' :
  JS.get (JS.set o k v) k' = if Ascii.eqb k k' then Some v else JS.get o k'.
Proof.
  induction o as [|[a w] o IH]; simpl.
  - reflexivity.
  - destruct (Ascii.eqb a k) eqn:Ek; simpl.
    + apply Ascii.eqb_eq in Ek. subst a.
      destruct (Ascii.eqb k k'); reflexivity.
    + destruct (Ascii.eqb a k') eqn:Ek'.
      * apply Ascii.eqb_eq in Ek'. subst a.
        rewrite eqb_ascii_sym, Ek. reflexivity.
      * exact IH.
Qed.

Section Tabulate.

Variable f : ascii -> nat.

Lemma get_tabulate l k :
  JS.get (tabulate f l) k
  = if existsb (Ascii.eqb k) l then Some (f k) else None.
Proof.
  induction l as [|a l IH]; simpl; [reflexivity|].
  rewrite (eqb_ascii_sym k a).
  destruct (Ascii.eqb a k) eqn:E; simpl; [|exact IH].
  apply Ascii.eqb_eq in E. subst. reflexivity.
Qed.

Lemma set_tabulate_notin l k v :
  ~ In k l -> JS.set (tabulate f l) k v = tabulate f l ++ [(k, v)].
Proof.
  induction l as [|a l IH]; simpl; intros H; [reflexivity|].
  destruct (Ascii.eqb a k) eqn:E.
  - apply Ascii.eqb_eq in E. tauto.
  - rewrite IH by tauto. reflexivity.
Qed.

End Tabulate.

Lemma set_tabulate_in f l k v :
  NoDup l -> In k l ->
  JS.set (tabulate f l) k v
  = tabulate (fun c => if Ascii.eqb c k then v else f c) l.
Proof.
  induction l as [|a l IH]; simpl; intros ND H; [tauto|].
  inversion ND as [|? ? Hnotin ND']; subst.
  destruct (Ascii.eqb a k) eqn:E.
  - apply Ascii.eqb_eq in E. subst a. f_equal.
    apply map_ext_in. intros c Hc.
    destruct (Ascii.eqb c k) eqn:E'; [|reflexivity].
    apply Ascii.eqb_eq in E'. subst. tauto.
  - f_equal. apply IH; [exact ND'|].
    destruct H as [H|H]; [|exact H].
    subst. rewrite Ascii.eqb_refl in E. discriminate.
Qed.

(** ** Counting *)

Lemma In_distinct c cs : In c (distinct cs) <-> In c cs.
Proof.
  induction cs as [|a cs IH]; simpl; [tauto|].
  rewrite filter_In, IH, negb_true_iff, Ascii.eqb_neq.
  destruct (ascii_dec a c) as [->|N]; [tauto|].
  intuition congruence.
Qed.

Lemma NoDup_distinct cs : NoDup (distinct cs).
Proof.
  induction cs as [|a cs IH]; simpl; constructor.
  - rewrite filter_In, Ascii.eqb_refl. intros [_ H]. discriminate.
  - apply NoDup_filter, IH.
Qed.

Lemma distinct_snoc cs c :
  distinct (cs ++ [c])
  = if existsb (Ascii.eqb c) cs then distinct cs else distinct cs ++ [c].
Proof.
  induction cs as [|a cs IH]; simpl; [reflexivity|].
  rewrite IH. destruct (Ascii.eqb c a) eqn:E; simpl.
  - destruct (existsb (Ascii.eqb c) cs); [reflexivity|].
    rewrite filter_app. simpl. rewrite E. simpl.
    rewrite app_nil_r. reflexivity.
  - destruct (existsb (Ascii.eqb c) cs); [reflexivity|].
    rewrite filter_app. simpl. rewrite E. reflexivity.
Qed.

Lemma occurrences_snoc c cs a :
  occurrences c (cs ++ [a])
  = occurrences c cs + (if Ascii.eqb a c then 1 else 0).
Proof.
  unfold occurrences. rewrite count_occ_app. simpl.
  destruct (ascii_dec a c) as [->|N].
  - rewrite Ascii.eqb_refl. reflexivity.
  - apply Ascii.eqb_neq in N. rewrite N. reflexivity.
Qed.

Lemma occurrences_cons c a cs :
  occurrences c (a :: cs)
  = (if Ascii.eqb a c then 1 else 0) + occurrences c cs.
Proof.
  unfold occurrences. simpl. destruct (ascii_dec a c) as [->|N].
  - rewrite Ascii.eqb_refl. reflexivity.
  - apply Ascii.eqb_neq in N. rewrite N. reflexivity.
Qed.

Lemma occurrences_pos c cs : In c cs <-> 0 < occurrences c cs.
Proof. unfold occurrences. apply count_occ_In. Qed.

(** One more character read, on the object of the counts so far. *)
Lemma countStep_tabulate cs c :
  countStep (tabulate (fun k => occurrences k cs) (distinct cs)) c
  = tabulate (fun k => occurrences k (cs ++ [c])) (distinct (cs ++ [c])).
Proof.
  unfold countStep, JS.incr.
  rewrite get_tabulate, distinct_snoc.
  rewrite (bool_ext (existsb (Ascii.eqb c) (distinct cs))
                    (existsb (Ascii.eqb c) cs))
    by (rewrite !existsb_eqb_In; apply In_distinct).
  destruct (existsb (Ascii.eqb c) cs) eqn:E.
  - apply existsb_eqb_In in E.
    pose proof (proj1 (occurrences_pos c cs) E) as Hpos.
    destruct (occurrences c cs) as [|n] eqn:En; [lia|]. simpl.
    rewrite set_tabulate_in
      by (try apply NoDup_distinct; apply In_distinct; exact E).
    apply map_ext. intros k. rewrite occurrences_snoc, (eqb_ascii_sym c k).
    destruct (Ascii.eqb k c) eqn:Ek; [|f_equal; lia].
    apply Ascii.eqb_eq in Ek. subst. f_equal. lia.
  - apply existsb_eqb_notIn in E. simpl.
    rewrite set_tabulate_notin by (rewrite In_distinct; exact E).
    unfold tabulate. rewrite map_app. simpl. f_equal.
    + apply map_ext_in. intros k Hk. rewrite occurrences_snoc.
      destruct (Ascii.eqb c k) eqn:Ek; [|f_equal; lia].
      apply Ascii.eqb_eq in Ek. subst.
      apply (proj1 (In_distinct _ _)) in Hk. tauto.
    + rewrite occurrences_snoc, Ascii.eqb_refl.
      assert (occurrences c cs = 0) as ->; [|reflexivity].
      destruct (occurrences c cs) eqn:En; [reflexivity|].
      exfalso. apply E, occurrences_pos. lia.
Qed.

(** [countCharacters] holds, for each distinct character in the order of
    its first occurrence, the number of its occurrences. *)
Lemma countCharacters_spec str :
  countCharacters str
  = tabulate (fun k => occurrences k (JS.chars str)) (distinct (JS.chars str)).
Proof.
  unfold countCharacters. generalize (JS.chars str) as cs.
  induction cs as [|c cs IH] using rev_ind; [reflexivity|].
  rewrite fold_left_app. simpl. rewrite IH. apply countStep_tabulate.
Qed.

Lemma In_digits_isDigit c : In c JS.digits <-> JS.isDigit c = true.
Proof. unfold JS.isDigit. symmetry. apply existsb_eqb_In. Qed.

Lemma In_entryOrder c cs : In c (entryOrder cs) <-> In c cs.
Proof.
  unfold entryOrder. rewrite in_app_iff, !filter_In, In_distinct.
  rewrite existsb_eqb_In, In_digits_isDigit, negb_true_iff.
  destruct (JS.isDigit c); intuition congruence.
Qed.

(** [Object.entries] of the counts lists them in [entryOrder]. *)
Lemma Object_entries_counts cs :
  JS.Object_entries (tabulate (fun k => occurrences k cs) (distinct cs))
  = map (fun k => (k, occurrences k cs)) (entryOrder cs).
Proof.
  unfold JS.Object_entries, JS.ownKeys.
  assert (Hkeys : filter (JS.has (tabulate (fun k => occurrences k cs)
                                            (distinct cs))) JS.digits
                  ++ filter (fun k => negb (JS.isDigit k))
                       (map fst (tabulate (fun k => occurrences k cs)
                                          (distinct cs)))
                  = entryOrder cs).
  { unfold entryOrder. f_equal.
    - apply filter_ext. intros d. unfold JS.has. rewrite get_tabulate.
      rewrite (bool_ext (existsb (Ascii.eqb d) (distinct cs))
                        (existsb (Ascii.eqb d) cs))
        by (rewrite !existsb_eqb_In; apply In_distinct).
      destruct (existsb (Ascii.eqb d) cs); reflexivity.
    - unfold tabulate. rewrite map_map. simpl. rewrite map_id. reflexivity. }
  rewrite Hkeys.
  assert (Hall : forall l, (forall k, In k l -> In k cs) ->
            flat_map (fun k =>
                 match JS.get (tabulate (fun k => occurrences k cs)
                                        (distinct cs)) k with
                 | Some v => [(k, v)]
                 | None => []
                 end) l
            = map (fun k => (k, occurrences k cs)) l).
  { induction l as [|a l IH]; intros Hl; simpl; [reflexivity|].
    rewrite get_tabulate.
    assert (existsb (Ascii.eqb a) (distinct cs) = true) as ->.
    { apply existsb_eqb_In, In_distinct, Hl. left. reflexivity. }
    simpl. f_equal. apply IH. intros k Hk. apply Hl. right. exact Hk. }
  apply Hall. intros k. apply In_entryOrder.
Qed.

Lemma existsb_map {A B} (f : B -> bool) (g : A -> B) l :
  existsb f (map g l) = existsb (fun x => f (g x)) l.
Proof. induction l as [|a l IH]; simpl; [reflexivity | rewrite IH; reflexivity]. Qed.

(** [maxCount > n], in the validator, says that some character occurs more
    than [n] times. *)
Lemma maxCount_gt input n :
  JS.gt (JS.Math_max (JS.Object_values
                        (countCharacters (JS.toUpperCase input)))) n
  = someExceeds n input.
Proof.
  rewrite gt_Math_max, countCharacters_spec.
  unfold JS.Object_values. rewrite Object_entries_counts, map_map. simpl.
  rewrite existsb_map. unfold someExceeds, count.
  apply bool_ext. rewrite !existsb_exists.
  split; intros [c [Hc Hn]]; exists c; split; try exact Hn;
    apply In_entryOrder; exact Hc.
Qed.

(** The exceeding characters the validator collects. *)
Lemma charsExceeding_spec input n :
  map (fun e => JS.str (fst e))
      (filter (fun e => n <? snd e)
              (JS.Object_entries (countCharacters (JS.toUpperCase input))))
  = map JS.str (exceeding n input).
Proof.
  rewrite countCharacters_spec, Object_entries_counts.
  unfold exceeding, count.
  generalize (entryOrder (JS.chars (JS.toUpperCase input))) as l.
  induction l as [|a l IH]; simpl; [reflexivity|].
  destruct (n <? occurrences a (JS.chars (JS.toUpperCase input)));
    simpl; rewrite IH; reflexivity.
Qed.

(** ** The character loop of the validator *)

Lemma lookup_truthy table key :
  forallb (fun e => JS.truthy (snd e)) table = true ->
  JS.truthy_opt (lookup table key)
  = existsb (fun k => String.eqb k key) (map fst table).
Proof.
  induction table as [|[k v] table IH]; simpl; [reflexivity|].
  intros H. apply andb_prop in H. destruct H as [Hv Ht].
  destruct (String.eqb k key); simpl; [exact Hv | apply IH, Ht].
Qed.

Lemma mapping_truthy key :
  JS.truthy_opt (lookup EMOJI_TEXT_MAPPING key) = inAlphabet key.
Proof. apply lookup_truthy. reflexivity. Qed.

Lemma checkCharacters_spec cs :
  checkCharacters cs
  = if forallb permitted cs then None else Some ERROR_MESSAGES.INVALID_CHAR.
Proof.
  induction cs as [|c cs IH]; [reflexivity|].
  cbn [checkCharacters forallb].
  rewrite mapping_truthy. unfold permitted at 1.
  destruct (inAlphabet (JS.toUpperCase_char c)) eqn:E;
    cbn [negb andb]; [exact IH|].
  destruct (String.eqb (JS.toUpperCase_char c) " ") eqn:E'; [|reflexivity].
  apply String.eqb_eq in E'. rewrite E' in E. discriminate.
Qed.

(** The validator, rule by rule. *)
Lemma validateText_rules guilds input :
  validateText guilds input =
    if blank input then Some ERROR_MESSAGES.EMPTY_TEXT
    else if 20 <? String.length input
    then Some ERROR_MESSAGES.TOO_MANY_CHARS_TOTAL
    else if negb (forallb permitted (JS.chars input))
    then Some ERROR_MESSAGES.INVALID_CHAR
    else if someExceeds 6 input then Some ERROR_MESSAGES.TOO_MANY_CHARS
    else if someExceeds (List.length guilds) input
    then Some (spaceCountError (exceeding (List.length guilds) input))
    else None.
Proof.
  unfold validateText.
  rewrite truthy_trim, negb_involutive, checkCharacters_spec.
  destruct (blank input); [reflexivity|].
  destruct (20 <? String.length input); [reflexivity|].
  destruct (forallb permitted (JS.chars input)); simpl; [|reflexivity].
  rewrite !maxCount_gt, charsExceeding_spec.
  destruct (someExceeds 6 input); [reflexivity|].
  destruct (someExceeds (List.length guilds) input); [|reflexivity].
  unfold spaceCountError.
  destruct (exceeding (List.length guilds) input) as [|a [|b l]]; reflexivity.
Qed.

(** ** The loop of [processText] *)

Lemma usageOf_spec counts c :
  snd (usageOf counts c) = usage counts c
  /\ JS.get (fst (usageOf counts c)) c = Some (usage counts c)
  /\ forall c', usage (fst (usageOf counts c)) c' = usage counts c'.
Proof.
  unfold usageOf, usage. simpl.
  destruct (JS.get counts c) as [[|n]|] eqn:E; simpl;
    rewrite ?get_set, ?Ascii.eqb_refl, ?E; repeat split; try reflexivity;
    intros c'; rewrite get_set;
    (destruct (Ascii.eqb c c') eqn:Ec; [|reflexivity]);
    apply Ascii.eqb_eq in Ec; subst; rewrite E; reflexivity.
Qed.

Lemma usage_incr counts c n c' :
  JS.get counts c = Some n ->
  usage (JS.incr counts c) c'
  = usage counts c' + (if Ascii.eqb c c' then 1 else 0).
Proof.
  intros E. unfold JS.incr, usage. rewrite E, get_set.
  destruct (Ascii.eqb c c') eqn:Ec.
  - apply Ascii.eqb_eq in Ec. subst. rewrite E. lia.
  - lia.
Qed.

(** The counter after the guard, the read and the increment. *)
Lemma usage_step counts c c' :
  usage (JS.incr (fst (usageOf counts c)) c) c'
  = usage counts c' + (if Ascii.eqb c c' then 1 else 0).
Proof.
  destruct (usageOf_spec counts c) as [_ [Hget Hsame]].
  rewrite (usage_incr _ _ _ _ Hget), Hsame. reflexivity.
Qed.

(** With a space available the clamped index is a valid one. *)
Lemma at_index_clamped (spaces : list Guild.t) i :
  spaces <> [] ->
  guildIndexOf i spaces = Z.of_nat (spaceIndex spaces i)
  /\ exists guild,
       nth_error spaces (spaceIndex spaces i) = Some guild
       /\ JS.at_index spaces (guildIndexOf i spaces) = Some guild.
Proof.
  intros Hne. unfold spaceIndex.
  assert (Hlen : 0 < List.length spaces)
    by (destruct spaces; [congruence | simpl; lia]).
  assert (Hidx : guildIndexOf i spaces
                 = Z.of_nat (Nat.min i (List.length spaces - 1)))
    by (unfold guildIndexOf; lia).
  split; [exact Hidx|].
  destruct (nth_error spaces (Nat.min i (List.length spaces - 1)))
    as [guild|] eqn:E.
  - exists guild. split; [reflexivity|].
    unfold JS.at_index. rewrite Hidx.
    destruct (Z.ltb_spec (Z.of_nat (Nat.min i (List.length spaces - 1))) 0);
      [lia|].
    rewrite Nat2Z.id. exact E.
  - apply nth_error_None in E. lia.
Qed.

Lemma addReaction_spec net message emoji h :
  addReaction net message emoji h
  = let ok := put_resolves net h (reactionUrl message emoji) in
    (h ++ Put (reactionUrl message emoji) ok
       :: (if ok then [] else [LogWarn "Failed to add reaction:"]),
     Normal ok).
Proof.
  unfold addReaction, try_catch, bind, RestAPI_put, ret, emit.
  fold (reactionUrl message emoji). simpl.
  destruct (put_resolves net h (reactionUrl message emoji)); simpl.
  - reflexivity.
  - rewrite <- app_assoc. reflexivity.
Qed.

(** The loop body performs one step of [iteration] and never throws when
    a space is available. *)
Lemma loopBody_iteration net message spaces st c h :
  spaces <> [] ->
  exists st' evs,
    loopBody net message spaces st c h = (h ++ evs, Normal st')
    /\ iteration message spaces st c st' evs.
Proof.
  intros Hne. unfold loopBody.
  destruct (usageOf (charUsageCount st) c) as [counts i] eqn:Eu.
  pose proof (usageOf_spec (charUsageCount st) c) as [Hi [_ _]].
  pose proof (usage_step (charUsageCount st) c) as Hstep.
  rewrite Eu in Hi, Hstep. simpl in Hi, Hstep. subst i.
  destruct (at_index_clamped spaces (usage (charUsageCount st) c) Hne)
    as [Hidx [guild [Hnth Hat]]].
  rewrite Hat, Hidx.
  destruct (findEmoji guild (lookup EMOJI_TEXT_MAPPING (JS.str c)))
    as [e|] eqn:Ef.
  - set (d := Directive.mk c (usage (charUsageCount st) c)
                (Z.of_nat (spaceIndex spaces (usage (charUsageCount st) c)))
                guild e).
    exists (mkLoop (JS.incr counts c) (planned st ++ [d])).
    exists (callBlock message d
              (put_resolves net h (reactionUrl message (Directive.emojiRef d)))).
    split.
    + unfold bind. rewrite addReaction_spec. cbv zeta.
      unfold emit, ret, callBlock.
      destruct (put_resolves net h _); simpl;
        rewrite <- !app_assoc; reflexivity.
    + subst d. apply iteration_call; simpl; auto.
  - exists (mkLoop (JS.incr counts c) (planned st)).
    eexists. split.
    + unfold bind, emit, ret. reflexivity.
    + apply iteration_skip; simpl; auto.
Qed.

(** Induction along the loop: what a step preserves holds at the end, and
    the loop completes normally. *)
Lemma loop_invariant net message spaces
    (Inv : list ascii -> LoopState -> list event -> Prop) :
  spaces <> [] ->
  (forall pre st evs c st' new,
      Inv pre st evs ->
      iteration message spaces st c st' new ->
      Inv (pre ++ [c]) st' (evs ++ new)) ->
  forall cs pre st evs h,
    Inv pre st evs ->
    exists st' evs',
      loop net message spaces st cs (h ++ evs) = (h ++ evs', Normal st')
      /\ Inv (pre ++ cs) st' evs'.
Proof.
  intros Hne Hstep. induction cs as [|c cs IH]; intros pre st evs h HInv.
  - exists st, evs. rewrite app_nil_r. split; [reflexivity | exact HInv].
  - destruct (loopBody_iteration net message spaces st c (h ++ evs) Hne)
      as [st1 [new [Hbody Hiter]]].
    specialize (Hstep pre st evs c st1 new HInv Hiter).
    destruct (IH (pre ++ [c]) st1 (evs ++ new) h Hstep)
      as [st' [evs' [Hloop HInv']]].
    exists st', evs'. split.
    + simpl. unfold bind. rewrite Hbody, <- app_assoc. exact Hloop.
    + rewrite <- app_assoc in HInv'. exact HInv'.
Qed.

(** *** The plan *)

Lemma indexed_snoc pre c :
  indexed (pre ++ [c]) = indexed pre ++ [(c, occurrences c pre)].
Proof.
  unfold indexed. rewrite length_app. simpl.
  rewrite Nat.add_1_r, seq_S, map_app. simpl. f_equal.
  - apply map_ext_in. intros p Hp. apply in_seq in Hp.
    rewrite app_nth1 by lia. rewrite firstn_app.
    replace (p - List.length pre) with 0 by lia.
    simpl. rewrite app_nil_r. reflexivity.
  - rewrite nth_middle, firstn_app, firstn_all, Nat.sub_diag.
    simpl. rewrite app_nil_r. reflexivity.
Qed.

Lemma planSpec_snoc spaces pre c :
  planSpec spaces (pre ++ [c])
  = planSpec spaces pre ++ directiveFor spaces (c, occurrences c pre).
Proof.
  unfold planSpec. rewrite indexed_snoc, flat_map_app. simpl.
  rewrite app_nil_r. reflexivity.
Qed.

Lemma ordered_snoc ds d :
  ordered ds ->
  (forall d1, In d1 ds -> Directive.char d1 = Directive.char d ->
              Directive.usageIndex d1 < Directive.usageIndex d) ->
  ordered (ds ++ [d]).
Proof.
  intros Hord Hnew i j d1 d2 Hij H1 H2 Hc.
  assert (Hj : j < List.length (ds ++ [d]))
    by (apply nth_error_Some; congruence).
  rewrite length_app in Hj. simpl in Hj.
  rewrite nth_error_app1 in H1 by lia.
  destruct (Nat.eq_dec j (List.length ds)) as [->|Hneq].
  - rewrite nth_error_app2, Nat.sub_diag in H2 by lia.
    simpl in H2. injection H2 as <-.
    apply Hnew; [eapply nth_error_In; exact H1 | exact Hc].
  - rewrite nth_error_app1 in H2 by lia.
    exact (Hord i j d1 d2 Hij H1 H2 Hc).
Qed.

Lemma plan_step message spaces pre st c st' new :
  planInvariant spaces pre st ->
  iteration message spaces st c st' new ->
  planInvariant spaces (pre ++ [c]) st'.
Proof.
  intros [Hu [Hp [Hlt Hord]]] Hiter.
  assert (Husage : forall c', usage (charUsageCount st) c'
                              + (if Ascii.eqb c c' then 1 else 0)
                              = occurrences c' (pre ++ [c]))
    by (intros c'; rewrite occurrences_snoc, Hu; reflexivity).
  destruct Hiter as [guild e ok st' Hnth Hf Hu' Hp'
                    | guild st' Hnth Hf Hu' Hp'];
    (split; [intros c'; rewrite Hu'; apply Husage|]);
    rewrite planSpec_snoc, Hp'; unfold directiveFor;
    rewrite <- Hu, Hnth, Hf, Hp.
  - split; [reflexivity|]. rewrite <- Hp. split.
    + intros d Hd. apply in_app_or in Hd. destruct Hd as [Hd|[<-|[]]].
      * specialize (Hlt d Hd). rewrite occurrences_snoc. lia.
      * simpl. rewrite occurrences_snoc, Ascii.eqb_refl, Hu. lia.
    + apply ordered_snoc; [exact Hord|].
      intros d1 Hd1 Hc. simpl in *. rewrite Hu, <- Hc. apply Hlt, Hd1.
  - rewrite app_nil_r. split; [reflexivity|]. rewrite <- Hp. split.
    + intros d Hd. specialize (Hlt d Hd). rewrite occurrences_snoc. lia.
    + exact Hord.
Qed.

(** *** The history *)

Lemma combine_snoc {A B} (l1 : list A) (l2 : list B) a b :
  List.length l1 = List.length l2 ->
  combine (l1 ++ [a]) (l2 ++ [b]) = combine l1 l2 ++ [(a, b)].
Proof.
  revert l2. induction l1 as [|x l1 IH]; intros [|y l2] H; simpl in *;
    try discriminate; [reflexivity|].
  rewrite IH by lia. reflexivity.
Qed.

Lemma failuresLogged_app a b :
  failuresLogged a -> failuresLogged b -> failuresLogged (a ++ b).
Proof.
  intros Ha Hb n url H.
  destruct (Nat.lt_ge_cases n (List.length a)) as [Hn|Hn].
  - rewrite nth_error_app1 in H by exact Hn.
    specialize (Ha n url H).
    assert (S n < List.length a) by (apply nth_error_Some; congruence).
    rewrite nth_error_app1 by assumption. exact Ha.
  - rewrite nth_error_app2 in H by exact Hn.
    specialize (Hb _ url H).
    rewrite nth_error_app2 by lia.
    replace (S n - List.length a) with (S (n - List.length a)) by lia.
    exact Hb.
Qed.

Lemma failuresLogged_callBlock message d ok :
  failuresLogged (callBlock message d ok).
Proof.
  intros n url H. unfold callBlock in *.
  destruct ok; simpl in *;
    destruct n as [|[|[|[|n]]]]; simpl in *;
    try discriminate; try reflexivity;
    destruct n; discriminate.
Qed.

Lemma trace_step message spaces st evs c st' new :
  traceInvariant message st evs ->
  iteration message spaces st c st' new ->
  traceInvariant message st' (evs ++ new).
Proof.
  intros [[oks [Hlen Ht]] [Hr [Hp Hf]]] Hiter.
  destruct Hiter as [guild e ok st' _ _ _ Hp' | guild st' _ _ _ Hp'];
    unfold traceInvariant; rewrite Hp'.
  - repeat split.
    + exists (oks ++ [ok]). split.
      * rewrite !length_app, Hlen. reflexivity.
      * rewrite combine_snoc by (symmetry; exact Hlen).
        rewrite flat_map_app. unfold timeline in *.
        rewrite filter_app, Ht. f_equal.
        destruct ok; reflexivity.
    + unfold requests in *. rewrite flat_map_app, Hr, map_app.
      f_equal. destruct ok; reflexivity.
    + unfold pauses in *. rewrite filter_app, !length_app, Hp.
      f_equal. destruct ok; reflexivity.
    + apply failuresLogged_app;
        [exact Hf | apply failuresLogged_callBlock].
  - repeat split.
    + exists oks. split; [exact Hlen|].
      unfold timeline in *. rewrite filter_app, Ht. simpl.
      apply app_nil_r.
    + unfold requests in *. rewrite flat_map_app, Hr. simpl.
      apply app_nil_r.
    + unfold pauses in *. rewrite filter_app, length_app, Hp. simpl. lia.
    + apply failuresLogged_app; [exact Hf|].
      intros [|[|n]] url H; simpl in H; discriminate.
Qed.

(** The whole loop, from the empty counter: it completes normally, and
    both invariants hold of the final state and of the events emitted. *)
Lemma loop_run net message spaces cs h :
  spaces <> [] ->
  exists st evs,
    loop net message spaces (mkLoop [] []) cs h = (h ++ evs, Normal st)
    /\ planInvariant spaces cs st
    /\ traceInvariant message st evs.
Proof.
  intros Hne.
  destruct (loop_invariant net message spaces
              (fun pre st evs => planInvariant spaces pre st
                                 /\ traceInvariant message st evs) Hne)
    with (cs := cs) (pre := @nil ascii) (st := mkLoop [] [])
         (evs := @nil event) (h := h)
    as [st [evs [Hloop [HP HT]]]].
  - intros pre st evs c st' new [HP HT] Hiter. split.
    + eapply plan_step; eassumption.
    + eapply trace_step; eassumption.
  - split.
    + repeat split; simpl; try reflexivity; try tauto.
      intros i j d1 d2 _ H. destruct i; discriminate.
    + repeat split; simpl; try reflexivity.
      * exists []. split; reflexivity.
      * intros [|n] url H; discriminate.
  - exists st, evs. rewrite app_nil_r in Hloop. simpl in *. tauto.
Qed.

(** ** The validator *)

Lemma someExceeds_true n input :
  someExceeds n input = true <-> exists c, n < count c input.
Proof.
  unfold someExceeds. rewrite existsb_exists. split.
  - intros [c [_ H]]. exists c. apply Nat.ltb_lt, H.
  - intros [c H]. exists c. split; [|apply Nat.ltb_lt, H].
    apply occurrences_pos. unfold count in H. lia.
Qed.

Lemma someExceeds_false n input :
  (forall c, count c input <= n) -> someExceeds n input = false.
Proof.
  intros H. destruct (someExceeds n input) eqn:E; [|reflexivity].
  apply someExceeds_true in E. destruct E as [c Hc].
  specialize (H c). lia.
Qed.

Lemma count_le_length c input :
  count c input <= List.length (JS.chars (JS.toUpperCase input)).
Proof. apply count_occ_bound. Qed.

Lemma NoDup_entryOrder cs : NoDup (entryOrder cs).
Proof.
  unfold entryOrder. apply NoDup_app.
  - apply NoDup_filter. unfold JS.digits. simpl.
    repeat constructor; simpl; intuition discriminate.
  - apply NoDup_filter, NoDup_distinct.
  - intros a Ha Hb. apply filter_In in Ha, Hb.
    destruct Ha as [Ha _], Hb as [_ Hb].
    apply In_digits_isDigit in Ha. rewrite Ha in Hb. discriminate.
Qed.

Lemma In_exceeding c n input :
  In c (exceeding n input) <-> n < count c input.
Proof.
  unfold exceeding. rewrite filter_In, In_entryOrder, Nat.ltb_lt.
  split; [tauto|]. intros H. split; [|exact H].
  apply occurrences_pos. unfold count in H. lia.
Qed.

Lemma NoDup_exceeding n input : NoDup (exceeding n input).
Proof. apply NoDup_filter, NoDup_entryOrder. Qed.

Lemma filter_filter {A} (f g : A -> bool) l :
  filter f (filter g l) = filter (fun x => g x && f x) l.
Proof.
  induction l as [|a l IH]; simpl; [reflexivity|].
  destruct (g a); simpl; [destruct (f a)|]; rewrite IH; reflexivity.
Qed.

(** The order of [exceeding]: digits ascending, then the rest as first
    encountered. *)
Lemma exceeding_order n input :
  exceeding n input
  = filter (fun d => n <? count d input) JS.digits
    ++ filter (fun c => negb (JS.isDigit c)) (firstEncountered n input).
Proof.
  unfold exceeding, entryOrder, firstEncountered.
  rewrite filter_app, !filter_filter. f_equal.
  - apply filter_ext. intros d.
    destruct (n <? count d input) eqn:E;
      [|apply andb_false_r]. rewrite andb_true_r.
    apply existsb_eqb_In, occurrences_pos.
    apply Nat.ltb_lt in E. unfold count in E. lia.
  - apply filter_ext. intros c. apply andb_comm.
Qed.

Lemma NoDup_singleton {A} (l : list A) c :
  NoDup l -> (forall x, In x l <-> x = c) -> l = [c].
Proof.
  intros ND H. destruct l as [|a [|b l]].
  - exfalso. apply (proj2 (H c) eq_refl).
  - f_equal. apply H. left. reflexivity.
  - exfalso.
    assert (a = c) by (apply H; left; reflexivity).
    assert (b = c) by (apply H; right; left; reflexivity).
    subst. inversion ND as [|? ? Hn _]. apply Hn. left. reflexivity.
Qed.

Lemma toUpperCase_char_nonempty c :
  exists a t, JS.toUpperCase_char c = String a t.
Proof.
  unfold JS.toUpperCase_char.
  repeat match goal with |- context [if ?b then _ else _] => destruct b end;
    eexists; eexists; reflexivity.
Qed.

(** A text that passes the validator leaves at least one space. *)
Lemma validated_spaces guilds input :
  validateText guilds input = None -> guilds <> [].
Proof.
  rewrite validateText_rules. intros H Hg. subst guilds. simpl in H.
  destruct (blank input) eqn:Eb; [discriminate|].
  destruct (20 <? String.length input); [discriminate|].
  destruct (negb (forallb permitted (JS.chars input))); [discriminate|].
  destruct (someExceeds 6 input); [discriminate|].
  destruct (someExceeds 0 input) eqn:E0; [discriminate|].
  destruct input as [|c input]; [discriminate|].
  destruct (toUpperCase_char_nonempty c) as [a [t Ha]].
  assert (someExceeds 0 (String c input) = true); [|congruence].
  apply someExceeds_true. exists a. unfold count.
  apply occurrences_pos. simpl. rewrite Ha. simpl. left. reflexivity.
Qed.

(** C4.  The validator applies its checks in the fixed order blank, longer
    than 20, invalid character, more than 6 repeats, more repeats than
    spaces, and returns the error of the first check that fails; 21 times
    'A' is too long, which is neither of the later errors. *)
Theorem validate_first_failure_wins :
  (forall guilds input,
      validateText guilds input =
        if blank input then Some ERROR_MESSAGES.EMPTY_TEXT
        else if 20 <? String.length input
        then Some ERROR_MESSAGES.TOO_MANY_CHARS_TOTAL
        else if negb (forallb permitted (JS.chars input))
        then Some ERROR_MESSAGES.INVALID_CHAR
        else if someExceeds 6 input then Some ERROR_MESSAGES.TOO_MANY_CHARS
        else if someExceeds (List.length guilds) input
        then Some (spaceCountError (exceeding (List.length guilds) input))
        else None)
  /\ (forall guilds,
         validateText guilds "AAAAAAAAAAAAAAAAAAAAA"
         = Some ERROR_MESSAGES.TOO_MANY_CHARS_TOTAL)
  /\ ERROR_MESSAGES.TOO_MANY_CHARS_TOTAL <> ERROR_MESSAGES.TOO_MANY_CHARS
  /\ ERROR_MESSAGES.TOO_MANY_CHARS_TOTAL <> ERROR_MESSAGES.INVALID_CHAR.
Proof.
  split; [exact validateText_rules|]. split.
  - intros guilds. rewrite validateText_rules. reflexivity.
  - split; discriminate.
Qed.

(** C3, as stated, fails on the empty text: it has at most 20 characters,
    no character outside the alphabet and no repeats, and is rejected. *)
Lemma valid_text_claim_fails_on_empty :
  ~ (forall (guilds : list Guild.t) (input : string),
        String.length input <= 20 ->
        (forall c, In c (JS.chars input) -> permitted c = true) ->
        (forall c, count c input <= Nat.min 6 (List.length guilds)) ->
        validateText guilds input = None).
Proof.
  intros H. specialize (H twoSpaces "").
  assert (E : validateText twoSpaces "" = None).
  { apply H.
    - simpl. lia.
    - intros c [].
    - intros c. unfold count. simpl. lia. }
  discriminate E.
Qed.

(** C3 (amended).  Every text that is not blank, has at most 20
    characters, uses only characters of the permitted alphabet
    (case-insensitively) and in which every character of the upper-cased
    text occurs at most min(6, availableSpaceCount) times is valid. *)
Theorem valid_text_accepted guilds input :
  blank input = false ->
  String.length input <= 20 ->
  (forall c, In c (JS.chars input) -> permitted c = true) ->
  (forall c, count c input <= Nat.min 6 (List.length guilds)) ->
  validateText guilds input = None.
Proof.
  intros Hb Hlen Hperm Hcount. rewrite validateText_rules, Hb.
  assert ((20 <? String.length input) = false) as ->
    by (apply Nat.ltb_ge; exact Hlen).
  assert (forallb permitted (JS.chars input) = true) as ->
    by (apply forallb_forall; exact Hperm).
  simpl.
  rewrite !someExceeds_false; [reflexivity| |];
    intros c; specialize (Hcount c); lia.
Qed.

Lemma valid_text_accepted_witness : validateText twoSpaces "Hi" = None.
Proof.
  apply valid_text_accepted.
  - reflexivity.
  - simpl. lia.
  - intros c [<-|[<-|[]]]; reflexivity.
  - intros c. eapply Nat.le_trans; [apply count_le_length|].
    simpl. lia.
Defined.

(** C6, as stated, fails on 21 times 'A': a character occurs more than 6
    times and the error is the one for the length. *)
Lemma repeat_ceiling_claim_fails_on_long_text :
  ~ (forall (guilds : list Guild.t) (input : string) (c : ascii),
        6 < count c input ->
        validateText guilds input = Some ERROR_MESSAGES.TOO_MANY_CHARS).
Proof.
  intros H.
  specialize (H twoSpaces "AAAAAAAAAAAAAAAAAAAAA" "A"%char).
  assert (E : validateText twoSpaces "AAAAAAAAAAAAAAAAAAAAA"
              = Some ERROR_MESSAGES.TOO_MANY_CHARS).
  { apply H. vm_compute. lia. }
  vm_compute in E. discriminate E.
Qed.

(** C6 (amended).  For every text that passes the first three checks (not
    blank, at most 20 characters, permitted characters only) and in which
    some character of the upper-cased text occurs more than 6 times, the
    validator returns the repeat error, whatever spaces are available. *)
Theorem repeat_ceiling guilds input c :
  blank input = false ->
  String.length input <= 20 ->
  (forall c', In c' (JS.chars input) -> permitted c' = true) ->
  6 < count c input ->
  validateText guilds input = Some ERROR_MESSAGES.TOO_MANY_CHARS.
Proof.
  intros Hb Hlen Hperm Hc. rewrite validateText_rules, Hb.
  assert ((20 <? String.length input) = false) as ->
    by (apply Nat.ltb_ge; exact Hlen).
  assert (forallb permitted (JS.chars input) = true) as ->
    by (apply forallb_forall; exact Hperm).
  simpl.
  assert (someExceeds 6 input = true) as ->
    by (apply someExceeds_true; exists c; exact Hc).
  reflexivity.
Qed.

Lemma repeat_ceiling_witness :
  validateText sixSpaces "AAAAAAA" = Some ERROR_MESSAGES.TOO_MANY_CHARS.
Proof.
  apply (repeat_ceiling sixSpaces "AAAAAAA" "A"%char).
  - reflexivity.
  - simpl. lia.
  - intros c' H. simpl in H.
    repeat (destruct H as [<-|H]; [reflexivity|]). destruct H.
  - vm_compute. lia.
Defined.

(** C5, as stated, fails when a digit exceeds: the counts are iterated
    with the digits first, so 'A' thrice then '1' thrice, with two spaces,
    lists '1' before 'A'. *)
Lemma space_limit_claim_fails_on_digits :
  firstEncountered 2 "AAA111" = ["A"; "1"]%char
  /\ validateText twoSpaces "AAA111"
     = Some (ERROR_MESSAGES.NOT_ENOUGH_GUILDS "1, A")
  /\ validateText twoSpaces "AAA111"
     <> Some (ERROR_MESSAGES.NOT_ENOUGH_GUILDS
               (JS.join ", " (map JS.str (firstEncountered 2 "AAA111")))).
Proof.
  split; [reflexivity|]. split; [reflexivity|].
  vm_compute. intros H. discriminate H.
Qed.

(** C5 (amended).  For every text that reaches the fifth rule: if exactly
    one character's count exceeds availableSpaceCount the error names that
    character; if more than one does, the error lists them comma-joined,
    the exceeding digits first in ascending order, then the other
    exceeding characters in the order each was first encountered.  With
    two spaces, "AAA" names "A" and "AAABBB" lists "A, B". *)
Theorem space_limit_errors :
  (forall guilds input,
      blank input = false ->
      String.length input <= 20 ->
      (forall c, In c (JS.chars input) -> permitted c = true) ->
      (forall c, count c input <= 6) ->
      (forall c,
          (forall c', List.length guilds < count c' input <-> c' = c) ->
          validateText guilds input
          = Some (ERROR_MESSAGES.SINGLE_CHAR_LIMIT (JS.str c)))
      /\ (forall c1 c2,
             c1 <> c2 ->
             List.length guilds < count c1 input ->
             List.length guilds < count c2 input ->
             validateText guilds input
             = Some (ERROR_MESSAGES.NOT_ENOUGH_GUILDS
                       (JS.join ", "
                          (map JS.str
                             (filter (fun d => List.length guilds
                                               <? count d input) JS.digits
                              ++ filter (fun c => negb (JS.isDigit c))
                                   (firstEncountered (List.length guilds)
                                      input)))))))
  /\ validateText twoSpaces "AAA"
     = Some (ERROR_MESSAGES.SINGLE_CHAR_LIMIT "A")
  /\ validateText twoSpaces "AAABBB"
     = Some (ERROR_MESSAGES.NOT_ENOUGH_GUILDS "A, B").
Proof.
  split; [|split; reflexivity].
  intros guilds input Hb Hlen Hperm H6.
  assert (Hrules : someExceeds (List.length guilds) input = true ->
                   validateText guilds input
                   = Some (spaceCountError
                             (exceeding (List.length guilds) input))).
  { intros Hk. rewrite validateText_rules, Hb, Hk.
    assert ((20 <? String.length input) = false) as ->
      by (apply Nat.ltb_ge; exact Hlen).
    assert (forallb permitted (JS.chars input) = true) as ->
      by (apply forallb_forall; exact Hperm).
    simpl. rewrite (someExceeds_false 6 input H6). reflexivity. }
  split.
  - intros c Hc. rewrite Hrules.
    + rewrite (NoDup_singleton (exceeding (List.length guilds) input) c).
      * reflexivity.
      * apply NoDup_exceeding.
      * intros x. rewrite In_exceeding. apply Hc.
    + apply someExceeds_true. exists c. apply Hc. reflexivity.
  - intros c1 c2 Hneq H1 H2. rewrite Hrules.
    + rewrite <- exceeding_order.
      apply In_exceeding in H1, H2.
      destruct (exceeding (List.length guilds) input) as [|a [|b l]].
      * destruct H1.
      * destruct H1 as [<-|[]], H2 as [<-|[]]. congruence.
      * reflexivity.
    + apply someExceeds_true. exists c1. exact H1.
Qed.

Lemma space_limit_errors_witness :
  validateText twoSpaces "AAA"
  = Some (ERROR_MESSAGES.SINGLE_CHAR_LIMIT "A").
Proof.
  apply (proj1 (proj1 space_limit_errors twoSpaces "AAA"
                  eq_refl
                  ltac:(simpl; lia)
                  ltac:(intros c [<-|[<-|[<-|[]]]]; reflexivity)
                  ltac:(intros c; eapply Nat.le_trans;
                        [apply count_le_length | simpl; lia]))
               "A"%char).
  intros c'. unfold count.
  change (JS.chars (JS.toUpperCase "AAA")) with ["A"; "A"; "A"]%char.
  rewrite !occurrences_cons.
  change (occurrences c' []) with 0.
  change (List.length twoSpaces) with 2.
  destruct (Ascii.eqb_spec "A" c') as [<-|N]; cbn [Nat.add].
  - split; intros _; [reflexivity | lia].
  - split; intros H; [exfalso; lia | congruence].
Defined.

(** ** The sort *)

Lemma insertGuild_length a sorted :
  List.length (insertGuild a sorted) = S (List.length sorted).
Proof.
  induction sorted as [|b rest IH]; simpl; [reflexivity|].
  destruct (compareGuilds a b <=? 0)%Z; simpl; [reflexivity|].
  rewrite IH. reflexivity.
Qed.

Lemma sortGuilds_length guilds :
  List.length (sortGuilds guilds) = List.length guilds.
Proof.
  induction guilds as [|a guilds IH]; simpl; [reflexivity|].
  rewrite insertGuild_length, IH. reflexivity.
Qed.

Lemma sortGuilds_nonempty guilds : guilds <> [] -> sortGuilds guilds <> [].
Proof.
  intros H E. apply (f_equal (@List.length _)) in E.
  rewrite sortGuilds_length in E. destruct guilds; [congruence|discriminate].
Qed.

Lemma insertGuild_In a sorted x :
  In x (insertGuild a sorted) <-> x = a \/ In x sorted.
Proof.
  induction sorted as [|b rest IH]; simpl; [intuition congruence|].
  destruct (compareGuilds a b <=? 0)%Z; simpl; [intuition congruence|].
  rewrite IH. intuition congruence.
Qed.

(** The sorted list is in registry priority order. *)
Lemma insertGuild_sorted a sorted :
  StronglySorted (fun x y => (registryIndex x <= registryIndex y)%Z) sorted ->
  StronglySorted (fun x y => (registryIndex x <= registryIndex y)%Z)
                 (insertGuild a sorted).
Proof.
  induction 1 as [|b rest Hs IH Hb]; simpl.
  - repeat constructor.
  - unfold compareGuilds.
    destruct (Z.leb_spec (registryIndex a - registryIndex b) 0).
    + constructor; [constructor; assumption|].
      constructor; [lia|].
      rewrite Forall_forall in *. intros x Hx. specialize (Hb x Hx). lia.
    + constructor; [exact IH|].
      rewrite Forall_forall in *. intros x Hx.
      apply insertGuild_In in Hx. destruct Hx as [->|Hx]; [lia|].
      apply Hb, Hx.
Qed.

Lemma sortGuilds_sorted guilds :
  StronglySorted (fun x y => (registryIndex x <= registryIndex y)%Z)
                 (sortGuilds guilds).
Proof.
  induction guilds as [|a guilds IH]; simpl.
  - constructor.
  - apply insertGuild_sorted, IH.
Qed.

Lemma sortGuilds_In guilds x : In x (sortGuilds guilds) <-> In x guilds.
Proof.
  induction guilds as [|a guilds IH]; simpl; [tauto|].
  rewrite insertGuild_In, IH. intuition congruence.
Qed.

(** ** A whole run of [processText] *)

(** On a text that passes the validator the run never throws: it is the
    loop over the sorted spaces, between the busy flag and [close]. *)
Lemma processText_validated net message guilds text h :
  validateText guilds (JS.toUpperCase text) = None ->
  exists evs st,
    processText net message guilds text h
    = (h ++ SetProcessing true :: evs ++ [Close], Normal tt)
    /\ assignAndDispatch net message guilds (JS.toUpperCase text)
         (h ++ [SetProcessing true])
       = ((h ++ [SetProcessing true]) ++ evs, Normal st)
    /\ planInvariant (sortGuilds guilds)
         (JS.chars (JS.toUpperCase text)) st
    /\ traceInvariant message st evs.
Proof.
  intros Hv.
  pose proof (sortGuilds_nonempty guilds (validated_spaces _ _ Hv)) as Hne.
  destruct (loop_run net message (sortGuilds guilds)
              (JS.chars (JS.toUpperCase text))
              (h ++ [SetProcessing true]) Hne)
    as [st [evs [Hloop [HP HT]]]].
  exists evs, st.
  split; [|split; [exact Hloop | split; assumption]].
  unfold processText, bind, emit, try_catch. rewrite Hv. simpl.
  unfold assignAndDispatch. rewrite Hloop.
  rewrite <- !app_assoc. reflexivity.
Qed.

(** ** Fetching *)

Lemma fetchUserGuilds_spec net h :
  fetchUserGuilds net h
  = match get_guilds net h with
    | Some body => (h ++ [Get "/users/@me/guilds" true], Normal body)
    | None =>
        (h ++ [Get "/users/@me/guilds" false;
               LogWarn "Failed to fetch user guilds:"], Normal [])
    end.
Proof.
  unfold fetchUserGuilds, try_catch, bind, RestAPI_get_guilds, ret, emit.
  destruct (get_guilds net h); [reflexivity|].
  rewrite <- app_assoc. reflexivity.
Qed.

Lemma fetchGuildEmojis_spec net guildId h :
  fetchGuildEmojis net guildId h
  = match get_emojis net h guildId with
    | Some body =>
        (h ++ [Get ("/guilds/" ++ guildId ++ "/emojis")%string true],
         Normal body)
    | None =>
        (h ++ [Get ("/guilds/" ++ guildId ++ "/emojis")%string false;
               LogWarn ("Failed to fetch emojis for guild " ++ guildId
                        ++ ":")%string], Normal [])
    end.
Proof.
  unfold fetchGuildEmojis, try_catch, bind, RestAPI_get_emojis, ret, emit.
  destruct (get_emojis net h guildId); [reflexivity|].
  rewrite <- app_assoc. reflexivity.
Qed.

Lemma joinTargetGuilds_normal net targetGuildIds userGuilds :
  forall joined h,
  exists h' r,
    joinTargetGuilds net targetGuildIds userGuilds joined h = (h', Normal r).
Proof.
  induction userGuilds as [|guild rest IH]; intros joined h; simpl.
  - exists h, joined. reflexivity.
  - destruct (existsb (String.eqb guild) targetGuildIds); [|apply IH].
    unfold bind. rewrite fetchGuildEmojis_spec.
    destruct (get_emojis net h guild); apply IH.
Qed.

Lemma getUserGuilds_normal net currentGuildCount this h :
  exists h' r,
    getUserGuilds net currentGuildCount this h = (h', Normal r).
Proof.
  unfold getUserGuilds.
  destruct ((0 <? List.length (cachedGuilds this))
            && (currentGuildCount =? lastGuildCount this)).
  - unfold bind, emit, ret. eexists. eexists. reflexivity.
  - unfold try_catch, bind. rewrite fetchUserGuilds_spec.
    destruct (get_guilds net h) as [body|].
    + destruct (joinTargetGuilds_normal net (map snd GUILD_IDS) body []
                  (h ++ [Get "/users/@me/guilds" true])) as [h' [r E]].
      rewrite E. unfold ret. eexists. eexists. reflexivity.
    + simpl. unfold ret. eexists. eexists. reflexivity.
Qed.

(** ** The assignment *)

Lemma planSpec_fields spaces cs d :
  In d (planSpec spaces cs) ->
  Directive.guildIndex d
  = Z.of_nat (spaceIndex spaces (Directive.usageIndex d))
  /\ nth_error spaces (spaceIndex spaces (Directive.usageIndex d))
     = Some (Directive.guild d)
  /\ findEmoji (Directive.guild d)
       (lookup EMOJI_TEXT_MAPPING (JS.str (Directive.char d)))
     = Some (Directive.emoji d).
Proof.
  unfold planSpec. rewrite in_flat_map. intros [[c i] [_ Hd]].
  unfold directiveFor in Hd.
  destruct (nth_error spaces (spaceIndex spaces i)) as [guild|] eqn:En;
    [|destruct Hd].
  destruct (findEmoji guild (lookup EMOJI_TEXT_MAPPING (JS.str c)))
    as [e|] eqn:Ef; [|destruct Hd].
  destruct Hd as [<-|[]]. simpl. auto.
Qed.

(** C1, as stated, fails: with all six registry spaces in priority order,
    each holding both emojis, the text "HI" passes the validator and both
    of its directives go to the first space; 'I' does not go to the
    second. *)
Lemma HI_claim_fails_second_space :
  validateText sixSpaces (JS.toUpperCase "HI") = None
  /\ map summary
       (plannedOf (assignAndDispatch reliable someMessage sixSpaces
                     (JS.toUpperCase "HI") []))
     = [("H"%char, "1339215110685724742", "H_");
        ("I"%char, "1339215110685724742", "I_")]
  /\ map summary
       (plannedOf (assignAndDispatch reliable someMessage sixSpaces
                     (JS.toUpperCase "HI") []))
     <> [("H"%char, "1339215110685724742", "H_");
         ("I"%char, "1339264485386621078", "I_")].
Proof.
  split; [reflexivity|]. split; [reflexivity|].
  vm_compute. intros H. discriminate H.
Qed.

(** C1 (amended).  For the text "HI" with all six registry spaces
    available in priority order 1..6, and the emojis H_ and I_ both
    present in space 1, the run produces exactly two directives:
    character H assigned to space 1 with emoji H_, then character I
    assigned to space 1 with emoji I_. *)
Theorem HI_both_in_first_space
    net message (es1 es2 es3 es4 es5 es6 : list Emoji.t) eH eI h :
  findEmoji (registryGuild 1 es1) (Some "H_") = Some eH ->
  findEmoji (registryGuild 1 es1) (Some "I_") = Some eI ->
  let guilds := [registryGuild 1 es1; registryGuild 2 es2;
                 registryGuild 3 es3; registryGuild 4 es4;
                 registryGuild 5 es5; registryGuild 6 es6] in
  validateText guilds (JS.toUpperCase "HI") = None
  /\ exists evs st,
       assignAndDispatch net message guilds (JS.toUpperCase "HI") h
       = (h ++ evs, Normal st)
       /\ planned st
          = [Directive.mk "H" 0 0 (registryGuild 1 es1) eH;
             Directive.mk "I" 0 0 (registryGuild 1 es1) eI].
Proof.
  intros HH HI guilds. split; [reflexivity|].
  unfold assignAndDispatch.
  change (sortGuilds guilds) with guilds.
  destruct (loop_run net message guilds (JS.chars (JS.toUpperCase "HI")) h)
    as [st [evs [Hloop [[_ [Hplan _]] _]]]]; [discriminate|].
  exists evs, st. split; [exact Hloop|].
  rewrite Hplan.
  change (planSpec guilds (JS.chars (JS.toUpperCase "HI")))
    with (directiveFor guilds ("H"%char, 0)
          ++ directiveFor guilds ("I"%char, 0) ++ []).
  unfold directiveFor. cbv zeta.
  change (nth_error guilds (spaceIndex guilds 0))
    with (Some (registryGuild 1 es1)).
  change (lookup EMOJI_TEXT_MAPPING (JS.str "H")) with (Some "H_").
  change (lookup EMOJI_TEXT_MAPPING (JS.str "I")) with (Some "I_").
  cbv iota. rewrite HH, HI. reflexivity.
Qed.

Lemma HI_both_in_first_space_witness :
  exists evs st,
    assignAndDispatch reliable someMessage sixSpaces (JS.toUpperCase "HI") []
    = ([] ++ evs, Normal st)
    /\ planned st
       = [Directive.mk "H" 0 0 (registryGuild 1 lettersHI)
            (Emoji.mk "H_" "1001");
          Directive.mk "I" 0 0 (registryGuild 1 lettersHI)
            (Emoji.mk "I_" "1002")].
Proof.
  exact (proj2 (HI_both_in_first_space reliable someMessage
                  lettersHI lettersHI lettersHI lettersHI lettersHI
                  lettersHI (Emoji.mk "H_" "1001") (Emoji.mk "I_" "1002")
                  [] eq_refl eq_refl)).
Defined.

(** C7.  For every non-empty list of k spaces and every text, the run
    completes and its directives are those of the plan: the i-th
    occurrence (0-based) of a character targets the space at index
    min(i, k-1).  Directives for one character come in the order of its
    occurrences, so a later one targets a strictly later space until the
    last space, index k-1, is reached, which is then reused. *)
Theorem round_robin_by_priority net message spaces cs h :
  spaces <> [] ->
  exists evs st,
    loop net message spaces (mkLoop [] []) cs h = (h ++ evs, Normal st)
    /\ planned st = planSpec spaces cs
    /\ (forall d, In d (planned st) ->
          Directive.usageIndex d < occurrences (Directive.char d) cs
          /\ Directive.guildIndex d
             = Z.of_nat (Nat.min (Directive.usageIndex d)
                                 (List.length spaces - 1))
          /\ nth_error spaces (Nat.min (Directive.usageIndex d)
                                       (List.length spaces - 1))
             = Some (Directive.guild d))
    /\ (forall i j d1 d2,
          i < j ->
          nth_error (planned st) i = Some d1 ->
          nth_error (planned st) j = Some d2 ->
          Directive.char d1 = Directive.char d2 ->
          Directive.usageIndex d1 < Directive.usageIndex d2
          /\ ((Directive.guildIndex d1 < Directive.guildIndex d2)%Z
              \/ (Directive.guildIndex d1 = Directive.guildIndex d2
                  /\ Directive.guildIndex d2
                     = Z.of_nat (List.length spaces - 1)))).
Proof.
  intros Hne.
  destruct (loop_run net message spaces cs h Hne)
    as [st [evs [Hloop [[_ [Hplan [Hlt Hord]]] _]]]].
  exists evs, st. split; [exact Hloop|]. split; [exact Hplan|].
  assert (Hfields : forall d, In d (planned st) ->
            Directive.guildIndex d
            = Z.of_nat (Nat.min (Directive.usageIndex d)
                                (List.length spaces - 1))
            /\ nth_error spaces (Nat.min (Directive.usageIndex d)
                                         (List.length spaces - 1))
               = Some (Directive.guild d)).
  { intros d Hd. rewrite Hplan in Hd.
    destruct (planSpec_fields spaces cs d Hd) as [Hg [Hn _]].
    split; assumption. }
  split.
  - intros d Hd. split; [apply Hlt, Hd | apply Hfields, Hd].
  - intros i j d1 d2 Hij H1 H2 Hc.
    pose proof (Hord i j d1 d2 Hij H1 H2 Hc) as Hu.
    split; [exact Hu|].
    destruct (Hfields d1 (nth_error_In _ _ H1)) as [G1 _].
    destruct (Hfields d2 (nth_error_In _ _ H2)) as [G2 _].
    rewrite G1, G2. lia.
Qed.

Lemma round_robin_by_priority_witness :
  exists evs st,
    loop reliable someMessage sixSpaces (mkLoop [] [])
      (JS.chars "HIHI") [] = ([] ++ evs, Normal st)
    /\ planned st = planSpec sixSpaces (JS.chars "HIHI").
Proof.
  destruct (round_robin_by_priority reliable someMessage sixSpaces
              (JS.chars "HIHI") [] ltac:(discriminate))
    as [evs [st [Hloop [Hplan _]]]].
  exists evs, st. split; assumption.
Defined.

(** The loop over a text in two parts is the loop over the first part,
    then the loop over the second from the state and history reached. *)
Lemma loop_app net message spaces cs1 cs2 :
  forall st h,
    loop net message spaces st (cs1 ++ cs2) h
    = match loop net message spaces st cs1 h with
      | (h', Normal st') => loop net message spaces st' cs2 h'
      | (h', Throw err) => (h', Throw err)
      end.
Proof.
  induction cs1 as [|c cs1 IH]; intros st h; [reflexivity|].
  cbn [app loop]. unfold bind.
  destruct (loopBody net message spaces st c h) as [h1 [st1|err]];
    [apply IH | reflexivity].
Qed.

(** C10.  After any prefix of the text the usage counter of every
    character is the number of its occurrences in the prefix, whatever the
    spaces' catalogs hold and whatever the network answers.  So the next
    character c, its i-th occurrence, makes the loop read the space at
    index min(i, k-1): that space's catalog is searched, and its reaction
    is requested (the directive names that space and index) or the
    warning names that space; the counter of c is incremented on both
    paths, and the run goes on to the end of the text. *)
Theorem usage_counts_every_occurrence net message spaces pre c post h :
  spaces <> [] ->
  exists evs1 st1 guild evs2 st2 evs3 st3,
    loop net message spaces (mkLoop [] []) pre h = (h ++ evs1, Normal st1)
    /\ (forall c', usage (charUsageCount st1) c' = occurrences c' pre)
    /\ snd (usageOf (charUsageCount st1) c) = occurrences c pre
    /\ guildIndexOf (snd (usageOf (charUsageCount st1) c)) spaces
       = Z.of_nat (Nat.min (occurrences c pre) (List.length spaces - 1))
    /\ nth_error spaces
         (Nat.min (occurrences c pre) (List.length spaces - 1))
       = Some guild
    /\ loopBody net message spaces st1 c (h ++ evs1)
       = ((h ++ evs1) ++ evs2, Normal st2)
    /\ ((exists e ok,
            findEmoji guild (lookup EMOJI_TEXT_MAPPING (JS.str c)) = Some e
            /\ evs2
               = callBlock message
                   (Directive.mk c (occurrences c pre)
                      (Z.of_nat (Nat.min (occurrences c pre)
                                         (List.length spaces - 1)))
                      guild e) ok
            /\ planned st2
               = planned st1
                 ++ [Directive.mk c (occurrences c pre)
                       (Z.of_nat (Nat.min (occurrences c pre)
                                          (List.length spaces - 1)))
                       guild e])
        \/ (findEmoji guild (lookup EMOJI_TEXT_MAPPING (JS.str c)) = None
            /\ evs2
               = [LogWarn ("Could not find emoji "
                           ++ string_of_option
                                (lookup EMOJI_TEXT_MAPPING (JS.str c))
                           ++ " in guild " ++ Guild.id guild)%string]
            /\ planned st2 = planned st1))
    /\ (forall c', usage (charUsageCount st2) c'
                   = occurrences c' (pre ++ [c]))
    /\ loop net message spaces (mkLoop [] []) (pre ++ c :: post) h
       = (h ++ evs1 ++ evs2 ++ evs3, Normal st3).
Proof.
  intros Hne.
  destruct (loop_run net message spaces pre h Hne)
    as [st1 [evs1 [Hloop1 [[Hu _] _]]]].
  destruct (loopBody_iteration net message spaces st1 c (h ++ evs1) Hne)
    as [st2 [evs2 [Hbody Hiter]]].
  destruct (loop_invariant net message spaces (fun _ _ _ => True) Hne)
    with (cs := post) (pre := @nil ascii) (st := st2)
         (evs := @nil event) (h := (h ++ evs1) ++ evs2)
    as [st3 [evs3 [Hloop3 _]]]; [trivial | trivial |].
  rewrite app_nil_r in Hloop3.
  destruct (usageOf_spec (charUsageCount st1) c) as [Hsnd _].
  destruct (at_index_clamped spaces (occurrences c pre) Hne)
    as [Hidx [guild [Hnth _]]].
  unfold spaceIndex in Hidx, Hnth.
  assert (Husage2 : forall c', usage (charUsageCount st2) c'
                               = occurrences c' (pre ++ [c])).
  { intros c'. rewrite occurrences_snoc, <- Hu.
    destruct Hiter as [g e ok st2 _ _ Hu' _ | g st2 _ _ Hu' _]; apply Hu'. }
  assert (Hcase :
    (exists e ok,
        findEmoji guild (lookup EMOJI_TEXT_MAPPING (JS.str c)) = Some e
        /\ evs2
           = callBlock message
               (Directive.mk c (occurrences c pre)
                  (Z.of_nat (Nat.min (occurrences c pre)
                                     (List.length spaces - 1)))
                  guild e) ok
        /\ planned st2
           = planned st1
             ++ [Directive.mk c (occurrences c pre)
                   (Z.of_nat (Nat.min (occurrences c pre)
                                      (List.length spaces - 1)))
                   guild e])
    \/ (findEmoji guild (lookup EMOJI_TEXT_MAPPING (JS.str c)) = None
        /\ evs2
           = [LogWarn ("Could not find emoji "
                       ++ string_of_option
                            (lookup EMOJI_TEXT_MAPPING (JS.str c))
                       ++ " in guild " ++ Guild.id guild)%string]
        /\ planned st2 = planned st1)).
  { destruct Hiter as [g e ok st2 Hg Hf _ Hp | g st2 Hg Hf _ Hp];
      unfold spaceIndex in *; rewrite Hu in *;
      rewrite Hnth in Hg; injection Hg as <-.
    - left. exists e, ok. repeat split; assumption.
    - right. repeat split; assumption. }
  exists evs1, st1, guild, evs2, st2, evs3, st3.
  split; [exact Hloop1|]. split; [exact Hu|].
  split; [rewrite Hsnd; apply Hu|].
  split; [rewrite Hsnd, Hu; exact Hidx|].
  split; [exact Hnth|]. split; [exact Hbody|].
  split; [exact Hcase|]. split; [exact Husage2|].
  rewrite loop_app, Hloop1. cbn [loop]. unfold bind.
  rewrite Hbody, Hloop3, <- !app_assoc. reflexivity.
Qed.

Lemma usage_counts_every_occurrence_witness :
  exists evs1 st1 guild evs2 st2,
    loop unreachable someMessage twoSpaces (mkLoop [] [])
      (JS.chars "HZ") [] = ([] ++ evs1, Normal st1)
    /\ nth_error twoSpaces 1 = Some guild
    /\ loopBody unreachable someMessage twoSpaces st1 "H" ([] ++ evs1)
       = (([] ++ evs1) ++ evs2, Normal st2)
    /\ usage (charUsageCount st2) "H" = 2.
Proof.
  destruct (usage_counts_every_occurrence unreachable someMessage twoSpaces
              (JS.chars "HZ") "H"%char (JS.chars "I") []
              ltac:(discriminate))
    as (evs1 & st1 & guild & evs2 & st2 & evs3 & st3 & Hloop & Hu1 & Hs
        & Hi & Hnth & Hbody & Hcase & Hu & Hall).
  exists evs1, st1, guild, evs2, st2.
  split; [exact Hloop|]. split; [exact Hnth|]. split; [exact Hbody|].
  exact (Hu "H"%char).
Defined.

(** ** The dispatch *)

(** C2, as stated, fails: a run with a single directive makes one call and
    one pause, not none, and a rejected call is followed by a pause
    too. *)
Lemma pause_claim_fails_on_single_directive :
  let evs := fst (processText reliable someMessage sixSpaces "H" []) in
  let evs' := fst (processText unreachable someMessage sixSpaces "H" []) in
  List.length (requests evs) = 1
  /\ pauses 350 evs = 1
  /\ pauses 350 evs <> List.length (requests evs) - 1
  /\ timeline evs'
     = [Put (reactionUrl someMessage "H_:1001") false; Sleep 350].
Proof.
  vm_compute. repeat split; try reflexivity. intros H. discriminate H.
Qed.

(** C2 (amended).  For every text that passes the validator, the run makes
    one reaction-add call per directive, in order, each awaited and each
    followed by a 350ms pause, whether the call succeeded or failed and
    also after the final call: n calls and n pauses. *)
Theorem dispatch_pauses_after_every_call net message guilds text h :
  validateText guilds (JS.toUpperCase text) = None ->
  exists evs st oks,
    processText net message guilds text h
    = (h ++ SetProcessing true :: evs ++ [Close], Normal tt)
    /\ assignAndDispatch net message guilds (JS.toUpperCase text)
         (h ++ [SetProcessing true])
       = ((h ++ [SetProcessing true]) ++ evs, Normal st)
    /\ List.length oks = List.length (planned st)
    /\ timeline evs
       = flat_map (callAndPause message) (combine (planned st) oks)
    /\ List.length (requests evs) = List.length (planned st)
    /\ pauses 350 evs = List.length (planned st).
Proof.
  intros Hv.
  destruct (processText_validated net message guilds text h Hv)
    as [evs [st [Hrun [Hloop [_ [[oks [Hlen Ht]] [Hr [Hp _]]]]]]]].
  exists evs, st, oks. repeat split; try assumption.
  rewrite Hr. apply length_map.
Qed.

Lemma dispatch_pauses_after_every_call_witness :
  exists evs st oks,
    processText unreachable someMessage sixSpaces "hi" []
    = ([] ++ SetProcessing true :: evs ++ [Close], Normal tt)
    /\ assignAndDispatch unreachable someMessage sixSpaces
         (JS.toUpperCase "hi") ([] ++ [SetProcessing true])
       = (([] ++ [SetProcessing true]) ++ evs, Normal st)
    /\ List.length oks = List.length (planned st)
    /\ timeline evs
       = flat_map (callAndPause someMessage) (combine (planned st) oks)
    /\ List.length (requests evs) = List.length (planned st)
    /\ pauses 350 evs = List.length (planned st).
Proof.
  apply (dispatch_pauses_after_every_call unreachable someMessage
           sixSpaces "hi" []).
  reflexivity.
Defined.

(** C8.  A rejected reaction-add request is logged and returned as
    [false], never thrown; on a validated text the run makes the call of
    every directive of the plan whatever the network answers, logs each
    failure right after it and ends by closing the dialog.  A rejected
    membership or catalog request is logged and degrades to the empty
    list, and [getUserGuilds] always completes normally. *)
Theorem network_failures_never_abort :
  (forall net message emoji h,
      addReaction net message emoji h
      = let ok := put_resolves net h (reactionUrl message emoji) in
        (h ++ Put (reactionUrl message emoji) ok
           :: (if ok then [] else [LogWarn "Failed to add reaction:"]),
         Normal ok))
  /\ (forall net message guilds text h,
         validateText guilds (JS.toUpperCase text) = None ->
         exists evs st,
           processText net message guilds text h
           = (h ++ SetProcessing true :: evs ++ [Close], Normal tt)
           /\ assignAndDispatch net message guilds (JS.toUpperCase text)
                (h ++ [SetProcessing true])
              = ((h ++ [SetProcessing true]) ++ evs, Normal st)
           /\ planned st
              = planSpec (sortGuilds guilds)
                  (JS.chars (JS.toUpperCase text))
           /\ requests evs
              = map (fun d => reactionUrl message (Directive.emojiRef d))
                    (planned st)
           /\ failuresLogged evs)
  /\ (forall net h,
         get_guilds net h = None ->
         fetchUserGuilds net h
         = (h ++ [Get "/users/@me/guilds" false;
                  LogWarn "Failed to fetch user guilds:"], Normal []))
  /\ (forall net guildId h,
         get_emojis net h guildId = None ->
         fetchGuildEmojis net guildId h
         = (h ++ [Get ("/guilds/" ++ guildId ++ "/emojis")%string false;
                  LogWarn ("Failed to fetch emojis for guild " ++ guildId
                           ++ ":")%string], Normal []))
  /\ (forall net currentGuildCount this h,
         exists h' r,
           getUserGuilds net currentGuildCount this h = (h', Normal r))
  /\ (forall net currentGuildCount this h,
         cachedGuilds this = [] ->
         get_guilds net h = None ->
         exists h' this',
           getUserGuilds net currentGuildCount this h
           = (h', Normal ([], this'))).
Proof.
  split; [exact addReaction_spec|].
  split.
  { intros net message guilds text h Hv.
    destruct (processText_validated net message guilds text h Hv)
      as [evs [st [Hrun [Hloop [[_ [Hplan _]] [_ [Hr [_ Hf]]]]]]]].
    exists evs, st. repeat split; assumption. }
  split.
  { intros net h E. rewrite fetchUserGuilds_spec, E. reflexivity. }
  split.
  { intros net guildId h E. rewrite fetchGuildEmojis_spec, E. reflexivity. }
  split; [exact getUserGuilds_normal|].
  intros net n this h Hc E. unfold getUserGuilds. rewrite Hc. simpl.
  unfold try_catch, bind. rewrite fetchUserGuilds_spec, E. simpl.
  unfold ret. eexists. eexists. reflexivity.
Qed.

Lemma network_failures_never_abort_witness :
  (exists evs st,
      processText unreachable someMessage sixSpaces "hi" []
      = ([] ++ SetProcessing true :: evs ++ [Close], Normal tt)
      /\ assignAndDispatch unreachable someMessage sixSpaces
           (JS.toUpperCase "hi") ([] ++ [SetProcessing true])
         = (([] ++ [SetProcessing true]) ++ evs, Normal st)
      /\ planned st
         = planSpec (sortGuilds sixSpaces) (JS.chars (JS.toUpperCase "hi"))
      /\ requests evs
         = map (fun d => reactionUrl someMessage (Directive.emojiRef d))
               (planned st)
      /\ failuresLogged evs)
  /\ fetchUserGuilds unreachable []
     = ([] ++ [Get "/users/@me/guilds" false;
               LogWarn "Failed to fetch user guilds:"], Normal [])
  /\ fetchGuildEmojis unreachable "1339215110685724742" []
     = ([] ++ [Get "/guilds/1339215110685724742/emojis" false;
               LogWarn "Failed to fetch emojis for guild 1339215110685724742:"],
        Normal [])
  /\ exists h' this',
       getUserGuilds unreachable 3 (mkPlugin 0 None [] 0) []
       = (h', Normal ([], this')).
Proof.
  destruct network_failures_never_abort as [_ [Hrun [Hg [He [_ Hu]]]]].
  split; [apply (Hrun unreachable someMessage sixSpaces "hi" []); reflexivity|].
  split; [apply (Hg unreachable []); reflexivity|].
  split; [apply (He unreachable "1339215110685724742" []); reflexivity|].
  apply (Hu unreachable 3 (mkPlugin 0 None [] 0) []); reflexivity.
Defined.

(** ** Permission gating *)

(** C9.  When the channel store returns no channel for a channel id, or a
    private channel, [hasPermission] is true for every permission bit; so
    the reaction gate and the external-emoji gate both pass, the button is
    rendered, and a click that is neither debounced nor closing an open
    dialog opens the dialog. *)
Theorem private_or_unresolved_channel_passes host channelId :
  ChannelStore_getChannel host channelId = None
  \/ (exists channel,
         ChannelStore_getChannel host channelId = Some channel
         /\ Channel.isPrivate channel = true) ->
  (forall permission, hasPermission host channelId permission = true)
  /\ hasAddReactionsPerms host channelId = true
  /\ hasExternalEmojiPerms host channelId = true
  /\ (forall message,
         Message.channel_id message = channelId ->
         renderMessagePopoverButton host message
         = Some (mkButton "Text to Emojis" message))
  /\ (forall message currentTime key this h,
         Message.channel_id message = channelId ->
         (250 <= currentTime - lastClickTime this)%Z ->
         JS.truthy_opt (currentModalKey this) = false ->
         onClick host message currentTime key this h
         = (h ++ [LogInfo ("Button clicked for message "
                           ++ Message.id message)%string;
                  OpenModal key],
            Normal (mkPlugin currentTime (Some key)
                      (cachedGuilds this) (lastGuildCount this)))).
Proof.
  intros Hch.
  assert (Hperm : forall permission,
             hasPermission host channelId permission = true).
  { intros permission. unfold hasPermission.
    destruct Hch as [->|[channel [-> Hpriv]]]; [reflexivity|].
    rewrite Hpriv. reflexivity. }
  split; [exact Hperm|].
  split; [apply Hperm|]. split; [apply Hperm|]. split.
  - intros message <-. unfold renderMessagePopoverButton.
    unfold hasAddReactionsPerms. rewrite Hperm. reflexivity.
  - intros message currentTime key this h <- Htime Hkey.
    unfold onClick, bind, emit, ret.
    destruct (Z.ltb_spec (currentTime - lastClickTime this) 250); [lia|].
    simpl. rewrite Hkey.
    unfold hasAddReactionsPerms, hasExternalEmojiPerms.
    rewrite !Hperm. simpl. rewrite <- app_assoc. reflexivity.
Qed.

Lemma private_or_unresolved_channel_passes_witness :
  (forall permission, hasPermission directMessagesHost "7001" permission = true)
  /\ hasAddReactionsPerms directMessagesHost "7001" = true
  /\ hasExternalEmojiPerms directMessagesHost "7001" = true
  /\ renderMessagePopoverButton directMessagesHost (Message.mk "7001" "8001")
     = Some (mkButton "Text to Emojis" (Message.mk "7001" "8001"))
  /\ onClick directMessagesHost (Message.mk "7001" "8001") 1000 "modal-1"
       (mkPlugin 0 None [] 0) []
     = ([] ++ [LogInfo "Button clicked for message 8001";
               OpenModal "modal-1"],
        Normal (mkPlugin 1000 (Some "modal-1") [] 0)).
Proof.
  destruct (private_or_unresolved_channel_passes directMessagesHost "7001")
    as [Hp [Ha [He [Hr Hc]]]].
  - right. exists (Channel.mk "7001" true). split; reflexivity.
  - split; [exact Hp|]. split; [exact Ha|]. split; [exact He|]. split.
    + apply Hr. reflexivity.
    + apply (Hc (Message.mk "7001" "8001") 1000%Z "modal-1"
                (mkPlugin 0 None [] 0) []).
      * reflexivity.
      * simpl. lia.
      * reflexivity.
Defined.

(** * Further properties of the code *)

(** ** The sort of the spaces *)

Lemma ofPriority_insertGuild i a sorted :
  ofPriority i (insertGuild a sorted)
  = (if Z.eqb (registryIndex a) i then [a] else []) ++ ofPriority i sorted.
Proof.
  unfold ofPriority.
  induction sorted as [|b rest IH]; simpl;
    [destruct (Z.eqb (registryIndex a) i); reflexivity|].
  unfold compareGuilds.
  destruct (Z.leb_spec (registryIndex a - registryIndex b) 0) as [Hle|Hgt].
  - simpl. destruct (Z.eqb (registryIndex a) i); reflexivity.
  - simpl. rewrite IH.
    destruct (Z.eqb_spec (registryIndex a) i) as [Ea|Ea];
      destruct (Z.eqb_spec (registryIndex b) i) as [Eb|Eb];
      try reflexivity; lia.
Qed.

Lemma insertGuild_Permutation a sorted :
  Permutation (a :: sorted) (insertGuild a sorted).
Proof.
  induction sorted as [|b rest IH]; simpl; [reflexivity|].
  destruct (compareGuilds a b <=? 0)%Z; [reflexivity|].
  rewrite perm_swap. apply perm_skip, IH.
Qed.

Lemma sortGuilds_specification guilds :
  Permutation guilds (sortGuilds guilds)
  /\ StronglySorted byPriority (sortGuilds guilds)
  /\ forall i, ofPriority i (sortGuilds guilds) = ofPriority i guilds.
Proof.
  split; [|split].
  - induction guilds as [|a guilds IH]; simpl; [constructor|].
    rewrite <- insertGuild_Permutation. apply perm_skip, IH.
  - apply sortGuilds_sorted.
  - intros i. induction guilds as [|a guilds IH]; simpl; [reflexivity|].
    rewrite ofPriority_insertGuild, IH. unfold ofPriority. simpl.
    destruct (Z.eqb (registryIndex a) i); reflexivity.
Qed.

(** X1.  The sorted copy holds the same spaces, in nondecreasing registry
    priority, and the sort is stable: the spaces of one priority (all the
    spaces outside the registry share 999) keep their order. *)
Theorem sortGuilds_stable_priority_order guilds :
  Permutation guilds (sortGuilds guilds)
  /\ StronglySorted byPriority (sortGuilds guilds)
  /\ forall i, ofPriority i (sortGuilds guilds) = ofPriority i guilds.
Proof. apply sortGuilds_specification. Qed.

Lemma key_injective_on (l : list Guild.t) x y :
  NoDup (map registryIndex l) ->
  In x l -> In y l -> registryIndex x = registryIndex y -> x = y.
Proof.
  induction l as [|a l IH]; simpl; intros ND Hx Hy E; [tauto|].
  inversion ND as [|? ? Hn ND']; subst.
  destruct Hx as [<-|Hx], Hy as [<-|Hy].
  - reflexivity.
  - exfalso. apply Hn. rewrite E. apply in_map, Hy.
  - exfalso. apply Hn. rewrite <- E. apply in_map, Hx.
  - apply IH; assumption.
Qed.

Lemma sorted_unique (l l' : list Guild.t) :
  StronglySorted byPriority l ->
  StronglySorted byPriority l' ->
  Permutation l l' ->
  NoDup (map registryIndex l) ->
  l = l'.
Proof.
  intros Hs. revert l'.
  induction Hs as [|a r Hr IH Ha]; intros l' Hs' Hp ND.
  - apply Permutation_nil in Hp. congruence.
  - destruct Hs' as [|b r' Hr' Hb].
    + apply Permutation_sym, Permutation_nil in Hp. discriminate.
    + assert (Hab : a = b).
      { apply (key_injective_on (a :: r)); try exact ND.
        - left. reflexivity.
        - apply (Permutation_in b (Permutation_sym Hp)). left. reflexivity.
        - rewrite Forall_forall in Ha, Hb. unfold byPriority in *.
          assert (In a (b :: r'))
            by (apply (Permutation_in a Hp); left; reflexivity).
          assert (In b (a :: r))
            by (apply (Permutation_in b (Permutation_sym Hp));
                left; reflexivity).
          assert (registryIndex b <= registryIndex a)%Z
            by (destruct H as [->|H]; [lia | apply Hb, H]).
          assert (registryIndex a <= registryIndex b)%Z
            by (destruct H0 as [->|H0]; [lia | apply Ha, H0]).
          lia. }
      subst b. f_equal. apply IH.
      * exact Hr'.
      * apply Permutation_cons_inv in Hp. exact Hp.
      * simpl in ND. inversion ND. assumption.
Qed.

(** X2.  When no two of the spaces share a registry priority, the sorted
    list does not depend on the order in which the spaces were obtained:
    two lists with the same spaces sort to the same list. *)
Theorem sortGuilds_ignores_fetch_order guilds guilds' :
  Permutation guilds guilds' ->
  NoDup (map registryIndex guilds) ->
  sortGuilds guilds = sortGuilds guilds'.
Proof.
  intros Hp ND.
  destruct (sortGuilds_specification guilds) as [P1 [S1 _]].
  destruct (sortGuilds_specification guilds') as [P2 [S2 _]].
  apply sorted_unique; try assumption.
  - rewrite <- P1, <- P2. exact Hp.
  - apply (Permutation_NoDup (l := map registryIndex guilds));
      [apply Permutation_map, P1 | exact ND].
Qed.

Lemma sortGuilds_ignores_fetch_order_witness :
  sortGuilds twoSpaces = sortGuilds (rev twoSpaces).
Proof.
  apply sortGuilds_ignores_fetch_order.
  - apply Permutation_rev.
  - simpl. repeat constructor; simpl; intuition discriminate.
Defined.

(** ** The validator and the counts *)

Lemma append_assoc (a b c : string) :
  ((a ++ b) ++ c = a ++ (b ++ c))%string.
Proof. induction a as [|x a IH]; simpl; [reflexivity | rewrite IH; reflexivity]. Qed.

Lemma toUpperCase_app a b :
  JS.toUpperCase (a ++ b)%string
  = (JS.toUpperCase a ++ JS.toUpperCase b)%string.
Proof.
  induction a as [|x a IH]; simpl; [reflexivity|].
  rewrite IH, append_assoc. reflexivity.
Qed.

Lemma toUpperCase_char_idempotent c :
  JS.toUpperCase (JS.toUpperCase_char c) = JS.toUpperCase_char c.
Proof. destruct c as [[] [] [] [] [] [] [] []]; reflexivity. Qed.

(** Upper-casing twice is upper-casing once. *)
Lemma toUpperCase_idempotent s :
  JS.toUpperCase (JS.toUpperCase s) = JS.toUpperCase s.
Proof.
  induction s as [|c s IH]; simpl; [reflexivity|].
  rewrite toUpperCase_app, toUpperCase_char_idempotent, IH. reflexivity.
Qed.

(** A permitted character has a one-character upper case, permitted too
    and whitespace exactly when the character is. *)
Lemma permitted_upper c :
  permitted c = true ->
  exists c',
    JS.toUpperCase_char c = JS.str c'
    /\ JS.isWhiteSpace c' = JS.isWhiteSpace c
    /\ permitted c' = true.
Proof.
  destruct c as [[] [] [] [] [] [] [] []]; intros H;
    vm_compute in H; try discriminate H;
    eexists; (split; [reflexivity | split; reflexivity]).
Qed.

Lemma permitted_text_upper input :
  forallb permitted (JS.chars input) = true ->
  blank (JS.toUpperCase input) = blank input
  /\ String.length (JS.toUpperCase input) = String.length input
  /\ forallb permitted (JS.chars (JS.toUpperCase input)) = true.
Proof.
  unfold blank.
  induction input as [|c input IH]; intros H;
    [repeat split; reflexivity|].
  change (JS.chars (String c input)) with (c :: JS.chars input) in *.
  cbn [forallb] in H. apply andb_prop in H. destruct H as [Hc Hrest].
  destruct (IH Hrest) as [Hb [Hl Hp]].
  destruct (permitted_upper c Hc) as [c' [Hup [Hws Hperm]]].
  cbn [JS.toUpperCase]. rewrite Hup.
  change (JS.str c' ++ JS.toUpperCase input)%string
    with (String c' (JS.toUpperCase input)).
  change (JS.chars (String c' (JS.toUpperCase input)))
    with (c' :: JS.chars (JS.toUpperCase input)).
  cbn [forallb String.length]. rewrite Hb, Hl, Hp, Hws, Hperm.
  repeat split; reflexivity.
Qed.

Lemma validateText_None_iff guilds input :
  validateText guilds input = None
  <-> blank input = false
      /\ String.length input <= 20
      /\ (forall c, In c (JS.chars input) -> permitted c = true)
      /\ (forall c, count c input <= Nat.min 6 (List.length guilds)).
Proof.
  rewrite validateText_rules. split.
  - intros H.
    destruct (blank input); [discriminate|].
    destruct (Nat.ltb_spec 20 (String.length input)); [discriminate|].
    destruct (forallb permitted (JS.chars input)) eqn:Ep;
      [|discriminate].
    simpl in H.
    destruct (someExceeds 6 input) eqn:E6; [discriminate|].
    destruct (someExceeds (List.length guilds) input) eqn:Ek;
      [discriminate|].
    repeat split; try assumption.
    + apply forallb_forall. exact Ep.
    + intros c. apply Nat.min_glb.
      * destruct (Nat.le_gt_cases (count c input) 6) as [Hle|Hgt];
          [exact Hle|].
        assert (someExceeds 6 input = true)
          by (apply someExceeds_true; exists c; exact Hgt).
        congruence.
      * destruct (Nat.le_gt_cases (count c input) (List.length guilds))
          as [Hle|Hgt]; [exact Hle|].
        assert (someExceeds (List.length guilds) input = true)
          by (apply someExceeds_true; exists c; exact Hgt).
        congruence.
  - intros [Hb [Hlen [Hperm Hcount]]]. rewrite Hb.
    assert ((20 <? String.length input) = false) as ->
      by (apply Nat.ltb_ge; exact Hlen).
    assert (forallb permitted (JS.chars input) = true) as ->
      by (apply forallb_forall; exact Hperm).
    simpl.
    rewrite !someExceeds_false; [reflexivity| |];
      intros c; specialize (Hcount c); lia.
Qed.

(** X3.  The validator accepts exactly the texts that are not blank, have
    at most 20 characters, use permitted characters only and repeat no
    character of the upper-cased text more than min(6, number of spaces)
    times. *)
Theorem validateText_accepts_exactly guilds input :
  validateText guilds input = None
  <-> blank input = false
      /\ String.length input <= 20
      /\ (forall c, In c (JS.chars input) -> permitted c = true)
      /\ (forall c, count c input <= Nat.min 6 (List.length guilds)).
Proof. apply validateText_None_iff. Qed.

(** X4.  On a text of permitted characters the validator does not see the
    letter case: the upper-cased text gets the same verdict, with the
    same message. *)
Theorem validateText_ignores_case guilds input :
  forallb permitted (JS.chars input) = true ->
  validateText guilds (JS.toUpperCase input) = validateText guilds input.
Proof.
  intros Hperm.
  destruct (permitted_text_upper input Hperm) as [Hb [Hl Hp]].
  rewrite !validateText_rules, Hb, Hl, Hp, Hperm.
  unfold someExceeds, exceeding, count.
  rewrite toUpperCase_idempotent. reflexivity.
Qed.

Lemma validateText_ignores_case_witness :
  validateText twoSpaces (JS.toUpperCase "hi") = validateText twoSpaces "hi".
Proof. apply validateText_ignores_case. reflexivity. Defined.

Lemma sum_set_present o k v w :
  JS.get o k = Some v ->
  list_sum (map snd (JS.set o k w)) + v = list_sum (map snd o) + w.
Proof.
  induction o as [|[a x] o IH]; simpl; [discriminate|].
  destruct (Ascii.eqb a k); simpl.
  - intros [= ->]. lia.
  - intros H. specialize (IH H). lia.
Qed.

Lemma sum_set_absent o k w :
  JS.get o k = None ->
  list_sum (map snd (JS.set o k w)) = list_sum (map snd o) + w.
Proof.
  induction o as [|[a x] o IH]; simpl; [lia|].
  destruct (Ascii.eqb a k); simpl; [discriminate|].
  intros H. rewrite (IH H). lia.
Qed.

Lemma countStep_sum o c :
  list_sum (map snd (countStep o c)) = S (list_sum (map snd o)).
Proof.
  unfold countStep, JS.incr.
  destruct (JS.get o c) as [[|n]|] eqn:E; simpl.
  - pose proof (sum_set_present o c 0 1 E). lia.
  - pose proof (sum_set_present o c (S n) (S (S n)) E). lia.
  - rewrite (sum_set_absent o c 1 E). lia.
Qed.

Lemma length_chars s : List.length (JS.chars s) = String.length s.
Proof. induction s as [|c s IH]; simpl; [reflexivity | rewrite IH; reflexivity]. Qed.

(** X5.  [countCharacters] holds one property per distinct character of
    the string, its value the number of occurrences of that character;
    a character that does not occur has no property, and the values add
    up to the number of characters the loop visits. *)
Theorem countCharacters_counts str :
  (forall c,
      JS.get (countCharacters str) c
      = if occurrences c (JS.chars str) =? 0 then None
        else Some (occurrences c (JS.chars str)))
  /\ NoDup (map fst (countCharacters str))
  /\ list_sum (map snd (countCharacters str))
     = List.length (JS.chars str).
Proof.
  split; [|split].
  - intros c. rewrite countCharacters_spec, get_tabulate.
    rewrite (bool_ext (existsb (Ascii.eqb c) (distinct (JS.chars str)))
                      (existsb (Ascii.eqb c) (JS.chars str)))
      by (rewrite !existsb_eqb_In; apply In_distinct).
    destruct (existsb (Ascii.eqb c) (JS.chars str)) eqn:E.
    + apply existsb_eqb_In, occurrences_pos in E.
      destruct (Nat.eqb_spec (occurrences c (JS.chars str)) 0);
        [lia | reflexivity].
    + apply existsb_eqb_notIn in E.
      destruct (Nat.eqb_spec (occurrences c (JS.chars str)) 0);
        [reflexivity|].
      exfalso. apply E, occurrences_pos. lia.
  - rewrite countCharacters_spec. unfold tabulate.
    rewrite map_map. simpl. rewrite map_id. apply NoDup_distinct.
  - unfold countCharacters.
    generalize (JS.chars str) as cs.
    induction cs as [|c cs IH] using rev_ind; [reflexivity|].
    rewrite fold_left_app, length_app. simpl.
    rewrite countStep_sum, IH. lia.
Qed.

Lemma validateText_accepts_exactly_witness :
  validateText sixSpaces "OK" = None.
Proof.
  apply validateText_accepts_exactly. split; [reflexivity|].
  split; [simpl; lia|]. split.
  - intros c [<-|[<-|[]]]; reflexivity.
  - intros c. eapply Nat.le_trans; [apply count_le_length|]. simpl. lia.
Defined.

(** ** Whole runs of [processText] *)

Lemma prefix_append a b : String.prefix a (a ++ b)%string = true.
Proof.
  induction a as [|x a IH]; simpl; [destruct b; reflexivity|].
  destruct (ascii_dec x x) as [_|N]; [exact IH | congruence].
Qed.

Lemma account_step message spaces pre st evs c st' new :
  accountInvariant pre st evs ->
  iteration message spaces st c st' new ->
  accountInvariant (pre ++ [c]) st' (evs ++ new).
Proof.
  intros [Hk Hn] Hiter. unfold accountInvariant.
  rewrite forallb_app, filter_app, !length_app, Hk.
  destruct Hiter as [guild e ok st' _ _ _ Hp' | guild st' _ _ _ Hp'];
    rewrite Hp'.
  - rewrite length_app. destruct ok; simpl; split; try reflexivity; lia.
  - cbn [forallb isDispatchEvent filter isMissingWarning andb].
    rewrite prefix_append. simpl. split; [reflexivity | lia].
Qed.

Lemma loop_account net message spaces cs h :
  spaces <> [] ->
  exists st evs,
    loop net message spaces (mkLoop [] []) cs h = (h ++ evs, Normal st)
    /\ accountInvariant cs st evs.
Proof.
  intros Hne.
  destruct (loop_invariant net message spaces accountInvariant Hne)
    with (cs := cs) (pre := @nil ascii) (st := mkLoop [] [])
         (evs := @nil event) (h := h)
    as [st [evs [Hloop HA]]].
  - intros pre st evs c st' new. apply account_step.
  - split; reflexivity.
  - exists st, evs. rewrite app_nil_r in Hloop. split; assumption.
Qed.

(** Every error of the validator is a non-empty message. *)
Lemma validateText_error_truthy guilds input e :
  validateText guilds input = Some e -> JS.truthy e = true.
Proof.
  rewrite validateText_rules.
  destruct (blank input); [intros [= <-]; reflexivity|].
  destruct (20 <? String.length input); [intros [= <-]; reflexivity|].
  destruct (negb (forallb permitted (JS.chars input)));
    [intros [= <-]; reflexivity|].
  destruct (someExceeds 6 input); [intros [= <-]; reflexivity|].
  destruct (someExceeds (List.length guilds) input); [|discriminate].
  intros [= <-]. unfold spaceCountError.
  destruct (exceeding (List.length guilds) input) as [|a [|b l]];
    reflexivity.
Qed.

(** The validated run with everything the loop lemmas know about it. *)
Lemma processText_run net message guilds text h :
  validateText guilds (JS.toUpperCase text) = None ->
  exists evs st,
    processText net message guilds text h
    = (h ++ SetProcessing true :: evs ++ [Close], Normal tt)
    /\ planInvariant (sortGuilds guilds)
         (JS.chars (JS.toUpperCase text)) st
    /\ traceInvariant message st evs
    /\ accountInvariant (JS.chars (JS.toUpperCase text)) st evs.
Proof.
  intros Hv.
  destruct (processText_validated net message guilds text h Hv)
    as [evs [st [Hrun [Hloop [HP HT]]]]].
  pose proof (sortGuilds_nonempty guilds (validated_spaces _ _ Hv)) as Hne.
  destruct (loop_account net message (sortGuilds guilds)
              (JS.chars (JS.toUpperCase text))
              (h ++ [SetProcessing true]) Hne)
    as [st' [evs' [Hloop' HA]]].
  unfold assignAndDispatch in Hloop. rewrite Hloop in Hloop'.
  injection Hloop' as Hevs Hst. apply app_inv_head in Hevs. subst.
  exists evs', st'.
  split; [exact Hrun|]. split; [exact HP|]. split; [exact HT | exact HA].
Qed.

(** X6.  Every rejection is acted upon.  On a text the validator
    rejects, a run of [processText] sets the busy flag, shows the
    validator's message and arms the three-second timer; it sends no
    request, does not close the dialog and completes normally, whatever
    the network would answer.  No message of the validator is the empty
    string, which the test of line 216 would take for no error. *)
Theorem processText_rejected_text_sends_nothing
    net message guilds text h e :
  validateText guilds (JS.toUpperCase text) = Some e ->
  JS.truthy e = true
  /\ processText net message guilds text h
     = (h ++ [SetProcessing true; SetError e; SetTimeout 3000], Normal tt).
Proof.
  intros Hv.
  pose proof (validateText_error_truthy _ _ _ Hv) as Ht.
  split; [exact Ht|].
  unfold processText, bind, emit. rewrite Hv. simpl. rewrite Ht.
  rewrite <- !app_assoc. reflexivity.
Qed.

Lemma processText_rejected_text_sends_nothing_witness :
  JS.truthy ERROR_MESSAGES.INVALID_CHAR = true
  /\ processText reliable someMessage sixSpaces "h~" []
     = ([] ++ [SetProcessing true; SetError ERROR_MESSAGES.INVALID_CHAR;
               SetTimeout 3000], Normal tt).
Proof.
  apply (processText_rejected_text_sends_nothing reliable someMessage
           sixSpaces "h~" []).
  reflexivity.
Defined.

(** X7.  A run on an accepted text accounts for every character of the
    upper-cased text: it either sends the reaction of the character or
    warns that the emoji is missing.  So a run sends at most 20 requests
    and pauses at most 20 times. *)
Theorem processText_accounts_for_every_character
    net message guilds text h :
  validateText guilds (JS.toUpperCase text) = None ->
  exists evs,
    processText net message guilds text h
    = (h ++ SetProcessing true :: evs ++ [Close], Normal tt)
    /\ List.length (requests evs)
       + List.length (filter isMissingWarning evs)
       = String.length (JS.toUpperCase text)
    /\ List.length (requests evs) <= 20
    /\ pauses 350 evs <= 20.
Proof.
  intros Hv.
  destruct (processText_run net message guilds text h Hv)
    as [evs [st [Hrun [_ [[_ [Hr [Hp _]]] [_ Hn]]]]]].
  exists evs. split; [exact Hrun|].
  rewrite Hr, length_map, Hp.
  rewrite length_chars in Hn.
  apply validateText_None_iff in Hv. destruct Hv as [_ [Hlen _]].
  repeat split; lia.
Qed.

Lemma processText_accounts_for_every_character_witness :
  exists evs,
    processText unreachable someMessage sixSpaces "Hz" []
    = ([] ++ SetProcessing true :: evs ++ [Close], Normal tt)
    /\ List.length (requests evs)
       + List.length (filter isMissingWarning evs)
       = String.length (JS.toUpperCase "Hz")
    /\ List.length (requests evs) <= 20
    /\ pauses 350 evs <= 20.
Proof.
  apply (processText_accounts_for_every_character unreachable someMessage
           sixSpaces "Hz" []).
  reflexivity.
Defined.

(** ** The directives of a run *)

Lemma lookup_In table key v :
  lookup table key = Some v -> In (key, v) table.
Proof.
  induction table as [|[k w] table IH]; simpl; [discriminate|].
  destruct (String.eqb_spec k key) as [->|N].
  - intros [= ->]. left. reflexivity.
  - intros H. right. apply IH, H.
Qed.

Lemma value_determines_key (table : list (string * string)) k1 k2 v :
  NoDup (map snd table) ->
  In (k1, v) table -> In (k2, v) table -> k1 = k2.
Proof.
  induction table as [|[k w] table IH]; simpl; intros ND H1 H2; [tauto|].
  inversion ND as [|? ? Hn ND']; subst.
  destruct H1 as [[= -> ->]|H1], H2 as [[= ->]|H2].
  - reflexivity.
  - exfalso. apply Hn. apply (in_map snd) in H2. exact H2.
  - exfalso. subst. apply Hn. apply (in_map snd) in H1. exact H1.
  - apply IH; assumption.
Qed.

Lemma mapping_values_distinct : NoDup (map snd EMOJI_TEXT_MAPPING).
Proof.
  assert (E : nodup string_dec (map snd EMOJI_TEXT_MAPPING)
              = map snd EMOJI_TEXT_MAPPING) by (vm_compute; reflexivity).
  rewrite <- E. apply NoDup_nodup.
Qed.

(** Two characters with the same emoji name are the same character. *)
Lemma mapping_injective c1 c2 n :
  lookup EMOJI_TEXT_MAPPING (JS.str c1) = Some n ->
  lookup EMOJI_TEXT_MAPPING (JS.str c2) = Some n ->
  c1 = c2.
Proof.
  intros H1 H2. apply lookup_In in H1, H2.
  pose proof (value_determines_key _ _ _ _ mapping_values_distinct H1 H2)
    as E.
  injection E as E. exact E.
Qed.

Lemma findEmoji_found guild emojiName e :
  findEmoji guild emojiName = Some e ->
  In e (Guild.emojis guild) /\ emojiName = Some (Emoji.name e).
Proof.
  unfold findEmoji. intros H. apply find_some in H. destruct H as [Hin Hn].
  split; [exact Hin|].
  destruct emojiName as [n|]; [|discriminate].
  apply String.eqb_eq in Hn. congruence.
Qed.

Lemma run_uses_catalog_emojis net message guilds upperText h :
  guilds <> [] ->
  exists evs st,
    assignAndDispatch net message guilds upperText h
    = (h ++ evs, Normal st)
    /\ forall d, In d (planned st) ->
         In (Directive.guild d) guilds
         /\ In (Directive.emoji d) (Guild.emojis (Directive.guild d))
         /\ lookup EMOJI_TEXT_MAPPING (JS.str (Directive.char d))
            = Some (Emoji.name (Directive.emoji d)).
Proof.
  intros Hne. unfold assignAndDispatch.
  destruct (loop_run net message (sortGuilds guilds) (JS.chars upperText) h
              (sortGuilds_nonempty guilds Hne))
    as [st [evs [Hloop [[_ [Hplan _]] _]]]].
  exists evs, st. split; [exact Hloop|].
  intros d Hd. rewrite Hplan in Hd.
  destruct (planSpec_fields _ _ _ Hd) as [_ [Hnth Hfind]].
  apply findEmoji_found in Hfind. destruct Hfind as [Hin Hname].
  split; [|split; assumption].
  apply sortGuilds_In. eapply nth_error_In. exact Hnth.
Qed.

(** X8.  Every directive of a run uses a space of the dialog's list and an
    emoji of that space's catalog, and the name of the emoji is the one
    the character map gives for the directive's character. *)
Theorem directives_use_catalog_emojis net message guilds upperText h :
  guilds <> [] ->
  exists evs st,
    assignAndDispatch net message guilds upperText h
    = (h ++ evs, Normal st)
    /\ forall d, In d (planned st) ->
         In (Directive.guild d) guilds
         /\ In (Directive.emoji d) (Guild.emojis (Directive.guild d))
         /\ lookup EMOJI_TEXT_MAPPING (JS.str (Directive.char d))
            = Some (Emoji.name (Directive.emoji d)).
Proof. apply run_uses_catalog_emojis. Qed.

Lemma directives_use_catalog_emojis_witness :
  exists evs st,
    assignAndDispatch reliable someMessage twoSpaces "HI" []
    = ([] ++ evs, Normal st)
    /\ forall d, In d (planned st) ->
         In (Directive.guild d) twoSpaces
         /\ In (Directive.emoji d) (Guild.emojis (Directive.guild d))
         /\ lookup EMOJI_TEXT_MAPPING (JS.str (Directive.char d))
            = Some (Emoji.name (Directive.emoji d)).
Proof.
  apply (directives_use_catalog_emojis reliable someMessage twoSpaces
           "HI" []).
  discriminate.
Defined.

(** On an accepted text no character occurs more often than there are
    spaces. *)
Lemma validated_occurrences guilds text c :
  validateText guilds (JS.toUpperCase text) = None ->
  occurrences c (JS.chars (JS.toUpperCase text)) <= List.length guilds.
Proof.
  intros Hv. apply validateText_None_iff in Hv.
  destruct Hv as [_ [_ [_ Hc]]]. specialize (Hc c).
  unfold count in Hc. rewrite toUpperCase_idempotent in Hc. lia.
Qed.

Lemma accepted_run_never_clamps net message guilds text h :
  validateText guilds (JS.toUpperCase text) = None ->
  exists evs st,
    assignAndDispatch net message guilds (JS.toUpperCase text) h
    = (h ++ evs, Normal st)
    /\ (forall d, In d (planned st) ->
          Directive.usageIndex d < List.length guilds
          /\ Directive.guildIndex d = Z.of_nat (Directive.usageIndex d)
          /\ nth_error (sortGuilds guilds) (Directive.usageIndex d)
             = Some (Directive.guild d))
    /\ (forall i j d1 d2,
          i < j ->
          nth_error (planned st) i = Some d1 ->
          nth_error (planned st) j = Some d2 ->
          Directive.char d1 = Directive.char d2 ->
          (Directive.guildIndex d1 < Directive.guildIndex d2)%Z).
Proof.
  intros Hv. unfold assignAndDispatch.
  destruct (loop_run net message (sortGuilds guilds)
              (JS.chars (JS.toUpperCase text)) h
              (sortGuilds_nonempty guilds (validated_spaces _ _ Hv)))
    as [st [evs [Hloop [[_ [Hplan [Hlt Hord]]] _]]]].
  exists evs, st. split; [exact Hloop|].
  assert (Hfields : forall d, In d (planned st) ->
            Directive.usageIndex d < List.length guilds
            /\ Directive.guildIndex d = Z.of_nat (Directive.usageIndex d)
            /\ nth_error (sortGuilds guilds) (Directive.usageIndex d)
               = Some (Directive.guild d)).
  { intros d Hd.
    pose proof (Hlt d Hd) as Hu.
    pose proof (validated_occurrences guilds text (Directive.char d) Hv)
      as Hocc.
    rewrite Hplan in Hd.
    destruct (planSpec_fields _ _ _ Hd) as [Hg [Hnth _]].
    assert (Hidx : spaceIndex (sortGuilds guilds) (Directive.usageIndex d)
                   = Directive.usageIndex d)
      by (unfold spaceIndex; rewrite sortGuilds_length; lia).
    rewrite Hidx in Hg, Hnth. split; [lia|]. split; assumption. }
  split; [exact Hfields|].
  intros i j d1 d2 Hij H1 H2 Hc.
  pose proof (Hord i j d1 d2 Hij H1 H2 Hc) as Hu.
  destruct (Hfields d1 (nth_error_In _ _ H1)) as [_ [G1 _]].
  destruct (Hfields d2 (nth_error_In _ _ H2)) as [_ [G2 _]].
  lia.
Qed.

(** X9.  In the run of an accepted text the clamp of line 237 never
    applies: the i-th occurrence of a character goes to the i-th space of
    the sorted list, so the directives of one character go to pairwise
    different spaces, in priority order. *)
Theorem accepted_text_never_clamps net message guilds text h :
  validateText guilds (JS.toUpperCase text) = None ->
  exists evs st,
    assignAndDispatch net message guilds (JS.toUpperCase text) h
    = (h ++ evs, Normal st)
    /\ (forall d, In d (planned st) ->
          Directive.usageIndex d < List.length guilds
          /\ Directive.guildIndex d = Z.of_nat (Directive.usageIndex d)
          /\ nth_error (sortGuilds guilds) (Directive.usageIndex d)
             = Some (Directive.guild d))
    /\ (forall i j d1 d2,
          i < j ->
          nth_error (planned st) i = Some d1 ->
          nth_error (planned st) j = Some d2 ->
          Directive.char d1 = Directive.char d2 ->
          (Directive.guildIndex d1 < Directive.guildIndex d2)%Z).
Proof. apply accepted_run_never_clamps. Qed.

Lemma accepted_text_never_clamps_witness :
  exists evs st,
    assignAndDispatch reliable someMessage twoSpaces (JS.toUpperCase "hh") []
    = ([] ++ evs, Normal st)
    /\ forall d, In d (planned st) ->
         Directive.usageIndex d < List.length twoSpaces
         /\ Directive.guildIndex d = Z.of_nat (Directive.usageIndex d)
         /\ nth_error (sortGuilds twoSpaces) (Directive.usageIndex d)
            = Some (Directive.guild d).
Proof.
  destruct (accepted_text_never_clamps reliable someMessage twoSpaces
              "hh" [] eq_refl) as [evs [st [Hrun [Hf _]]]].
  exists evs, st. split; assumption.
Defined.

Lemma distinct_keys_distinct_positions {A B} (f : A -> B) l i j x y :
  NoDup (map f l) ->
  nth_error l i = Some x ->
  nth_error l j = Some y ->
  f x = f y ->
  i = j.
Proof.
  intros ND Hi Hj E.
  apply (proj1 (NoDup_nth_error (map f l)) ND).
  - rewrite length_map. apply nth_error_Some. congruence.
  - rewrite !nth_error_map, Hi, Hj. simpl. congruence.
Qed.

(** X10.  When the spaces of the dialog have pairwise different
    identifiers, the run of an accepted text never asks the same space
    for an emoji of the same name twice: two reactions of one character
    go to spaces with different identifiers, two reactions of different
    characters use emojis with different names. *)
Theorem accepted_text_never_repeats_a_reaction
    net message guilds text h :
  validateText guilds (JS.toUpperCase text) = None ->
  NoDup (map Guild.id guilds) ->
  exists evs st,
    assignAndDispatch net message guilds (JS.toUpperCase text) h
    = (h ++ evs, Normal st)
    /\ forall i j d1 d2,
         i < j ->
         nth_error (planned st) i = Some d1 ->
         nth_error (planned st) j = Some d2 ->
         (Guild.id (Directive.guild d1), Emoji.name (Directive.emoji d1))
         <> (Guild.id (Directive.guild d2), Emoji.name (Directive.emoji d2)).
Proof.
  intros Hv Hids.
  destruct (accepted_run_never_clamps net message guilds text h Hv)
    as [evs [st [Hrun [Hfields Hsame]]]].
  destruct (run_uses_catalog_emojis net message guilds
              (JS.toUpperCase text) h (validated_spaces _ _ Hv))
    as [evs' [st' [Hrun' Hcat]]].
  rewrite Hrun in Hrun'. injection Hrun' as _ <-.
  assert (Hsorted : NoDup (map Guild.id (sortGuilds guilds))).
  { destruct (sortGuilds_specification guilds) as [Hperm _].
    apply (Permutation_NoDup (l := map Guild.id guilds));
      [apply Permutation_map, Hperm | exact Hids]. }
  exists evs, st. split; [exact Hrun|].
  intros i j d1 d2 Hij H1 H2 [= Hg Hn].
  destruct (Hcat d1 (nth_error_In _ _ H1)) as [_ [_ L1]].
  destruct (Hcat d2 (nth_error_In _ _ H2)) as [_ [_ L2]].
  rewrite Hn in L1.
  pose proof (mapping_injective _ _ _ L1 L2) as Hc.
  pose proof (Hsame i j d1 d2 Hij H1 H2 Hc) as Hlt.
  destruct (Hfields d1 (nth_error_In _ _ H1)) as [_ [G1 N1]].
  destruct (Hfields d2 (nth_error_In _ _ H2)) as [_ [G2 N2]].
  pose proof (distinct_keys_distinct_positions Guild.id _ _ _ _ _
                Hsorted N1 N2 Hg) as Heq.
  lia.
Qed.

Lemma accepted_text_never_repeats_a_reaction_witness :
  exists evs st,
    assignAndDispatch reliable someMessage twoSpaces (JS.toUpperCase "hih") []
    = ([] ++ evs, Normal st)
    /\ forall i j d1 d2,
         i < j ->
         nth_error (planned st) i = Some d1 ->
         nth_error (planned st) j = Some d2 ->
         (Guild.id (Directive.guild d1), Emoji.name (Directive.emoji d1))
         <> (Guild.id (Directive.guild d2), Emoji.name (Directive.emoji d2)).
Proof.
  apply (accepted_text_never_repeats_a_reaction reliable someMessage
           twoSpaces "hih" []).
  - reflexivity.
  - simpl. repeat constructor; simpl; intuition discriminate.
Defined.

(** ** The directory lookup and its cache *)

Lemma joinTargetGuilds_spec net userGuilds :
  forall joined h,
  exists evs r,
    joinTargetGuilds net targetGuildIds userGuilds joined h
    = (h ++ evs, Normal r)
    /\ map Guild.id r
       = map Guild.id joined ++ filter inRegistry userGuilds
    /\ gets evs = map emojisUrl (filter inRegistry userGuilds)
    /\ forallb isLookupEvent evs = true.
Proof.
  induction userGuilds as [|guild rest IH]; intros joined h.
  - exists [], joined. simpl. unfold ret.
    rewrite !app_nil_r. repeat split; reflexivity.
  - cbn [joinTargetGuilds filter].
    change (existsb (String.eqb guild) targetGuildIds)
      with (inRegistry guild).
    destruct (inRegistry guild) eqn:Ein.
    + unfold bind. rewrite fetchGuildEmojis_spec.
      fold (emojisUrl guild).
      destruct (get_emojis net h guild) as [body|].
      * destruct (IH (joined ++ [Guild.mk guild body])
                     (h ++ [Get (emojisUrl guild) true]))
          as [evs [r [Hrun [Hids [Hgets Hk]]]]].
        exists (Get (emojisUrl guild) true :: evs), r.
        rewrite Hrun, <- app_assoc. simpl.
        rewrite Hids, map_app, <- app_assoc, Hgets, Hk.
        repeat split; reflexivity.
      * destruct (IH (joined ++ [Guild.mk guild []])
                     (h ++ [Get (emojisUrl guild) false;
                            LogWarn ("Failed to fetch emojis for guild "
                                     ++ guild ++ ":")%string]))
          as [evs [r [Hrun [Hids [Hgets Hk]]]]].
        exists (Get (emojisUrl guild) false
                :: LogWarn ("Failed to fetch emojis for guild "
                            ++ guild ++ ":")%string :: evs), r.
        rewrite Hrun, <- app_assoc. simpl.
        rewrite Hids, map_app, <- app_assoc, Hgets, Hk.
        repeat split; reflexivity.
    + apply IH.
Qed.

(** A lookup that cannot use the cache. *)
Lemma getUserGuilds_refetch net currentGuildCount this h :
  (0 <? List.length (cachedGuilds this))
  && (currentGuildCount =? lastGuildCount this) = false ->
  let body := match get_guilds net h with Some b => b | None => [] end in
  exists evs r,
    getUserGuilds net currentGuildCount this h
    = (h ++ evs,
       Normal (r, mkPlugin (lastClickTime this) (currentModalKey this)
                    r currentGuildCount))
    /\ map Guild.id r = filter inRegistry body
    /\ gets evs
       = "/users/@me/guilds" :: map emojisUrl (filter inRegistry body)
    /\ forallb isLookupEvent evs = true.
Proof.
  intros Hmiss body. unfold getUserGuilds. rewrite Hmiss.
  unfold try_catch, bind. rewrite fetchUserGuilds_spec.
  change (map snd GUILD_IDS) with targetGuildIds. subst body.
  destruct (get_guilds net h) as [b|].
  - destruct (joinTargetGuilds_spec net b []
                (h ++ [Get "/users/@me/guilds" true]))
      as [evs [r [Hrun [Hids [Hgets Hk]]]]].
    exists (Get "/users/@me/guilds" true :: evs), r.
    rewrite Hrun, <- app_assoc. unfold ret. simpl.
    rewrite Hgets, Hk. repeat split; try reflexivity. exact Hids.
  - exists [Get "/users/@me/guilds" false;
            LogWarn "Failed to fetch user guilds:"], [].
    repeat split; reflexivity.
Qed.

Lemma joinTargetGuilds_catalogs net userGuilds :
  forall joined h,
    joinTargetGuilds net targetGuildIds userGuilds joined h
    = (h ++ snd (catalogsFrom net (filter inRegistry userGuilds) h),
       Normal (joined
               ++ fst (catalogsFrom net (filter inRegistry userGuilds) h))).
Proof.
  induction userGuilds as [|guild rest IH]; intros joined h.
  - simpl. unfold ret. rewrite !app_nil_r. reflexivity.
  - cbn [joinTargetGuilds filter].
    change (existsb (String.eqb guild) targetGuildIds)
      with (inRegistry guild).
    destruct (inRegistry guild) eqn:Ein; [|apply IH].
    unfold bind. rewrite fetchGuildEmojis_spec.
    cbn [catalogsFrom fst snd]. unfold catalogEvents, catalogAnswer.
    fold (emojisUrl guild).
    destruct (get_emojis net h guild) as [body|];
      rewrite IH, <- !app_assoc; reflexivity.
Qed.

Lemma catalogsFrom_facts net ids :
  forall h,
    map Guild.id (fst (catalogsFrom net ids h)) = ids
    /\ gets (snd (catalogsFrom net ids h)) = map emojisUrl ids
    /\ forallb isLookupEvent (snd (catalogsFrom net ids h)) = true.
Proof.
  induction ids as [|guildId rest IH]; intros h;
    [repeat split; reflexivity|].
  cbn [catalogsFrom fst snd map].
  destruct (IH (h ++ catalogEvents net h guildId)) as [Hids [Hgets Hk]].
  unfold gets in *. rewrite flat_map_app, forallb_app, Hids, Hgets, Hk.
  unfold catalogEvents.
  destruct (get_emojis net h guildId); repeat split; reflexivity.
Qed.

Lemma catalogsFrom_stateless net ids :
  (forall h1 h2 guildId,
      get_emojis net h1 guildId = get_emojis net h2 guildId) ->
  forall h h',
    fst (catalogsFrom net ids h)
    = map (fun guildId => Guild.mk guildId (catalogAnswer net h' guildId))
          ids.
Proof.
  intros Hnet. induction ids as [|guildId rest IH]; intros h h';
    [reflexivity|].
  cbn [catalogsFrom fst map]. rewrite (IH _ h').
  unfold catalogAnswer. rewrite (Hnet h h'). reflexivity.
Qed.

(** X11.  A lookup that cannot use the cache asks the directory for the
    memberships and then, for each membership that is in the registry and
    in the order of the answer, for the catalog of that space, and for
    nothing else.  It returns exactly these spaces in that order, each
    with the catalog that was answered for it (none when the request was
    rejected), stores them as the new cache and remembers the space
    count; a rejected membership request counts as no memberships.  On a
    network whose catalog answers do not depend on what was asked before,
    each space has the catalog the network holds for it. *)
Theorem getUserGuilds_refetches_registry_spaces
    net currentGuildCount this h :
  cachedGuilds this = [] \/ currentGuildCount <> lastGuildCount this ->
  let body := match get_guilds net h with Some b => b | None => [] end in
  let first := membershipEvents net h in
  let answer := catalogsFrom net (filter inRegistry body) (h ++ first) in
  getUserGuilds net currentGuildCount this h
  = (h ++ first ++ snd answer,
     Normal (fst answer,
             mkPlugin (lastClickTime this) (currentModalKey this)
               (fst answer) currentGuildCount))
  /\ map Guild.id (fst answer) = filter inRegistry body
  /\ gets (first ++ snd answer)
     = "/users/@me/guilds" :: map emojisUrl (filter inRegistry body)
  /\ forallb isLookupEvent (first ++ snd answer) = true
  /\ ((forall h1 h2 guildId,
          get_emojis net h1 guildId = get_emojis net h2 guildId) ->
      fst answer
      = map (fun guildId => Guild.mk guildId (catalogAnswer net h guildId))
            (filter inRegistry body)).
Proof.
  intros Hmiss body first answer.
  assert (Hflag : (0 <? List.length (cachedGuilds this))
                  && (currentGuildCount =? lastGuildCount this) = false).
  { destruct Hmiss as [->|Hne]; [reflexivity|].
    apply Nat.eqb_neq in Hne. rewrite Hne. apply andb_false_r. }
  destruct (catalogsFrom_facts net (filter inRegistry body) (h ++ first))
    as [Hids [Hgets Hk]].
  fold answer in Hids, Hgets, Hk.
  split; [|split; [exact Hids|split; [|split]]].
  - unfold getUserGuilds. rewrite Hflag.
    unfold try_catch, bind. rewrite fetchUserGuilds_spec.
    change (map snd GUILD_IDS) with targetGuildIds.
    subst answer first body. unfold membershipEvents.
    destruct (get_guilds net h) as [b|].
    + rewrite joinTargetGuilds_catalogs. unfold ret.
      rewrite <- app_assoc. reflexivity.
    + simpl. unfold ret. rewrite ?app_nil_r. reflexivity.
  - unfold gets in *. rewrite flat_map_app, Hgets.
    subst first. unfold membershipEvents.
    destruct (get_guilds net h); reflexivity.
  - rewrite forallb_app, Hk. subst first. unfold membershipEvents.
    destruct (get_guilds net h); reflexivity.
  - intros Hnet. apply catalogsFrom_stateless, Hnet.
Qed.

Lemma getUserGuilds_refetches_registry_spaces_witness :
  getUserGuilds memberOfFirst 3 freshPlugin []
  = ([] ++ [Get "/users/@me/guilds" true]
        ++ [Get "/guilds/1339215110685724742/emojis" true],
     Normal ([Guild.mk "1339215110685724742" lettersHI],
             mkPlugin 0 None [Guild.mk "1339215110685724742" lettersHI] 3)).
Proof.
  apply (getUserGuilds_refetches_registry_spaces memberOfFirst 3
           freshPlugin []).
  left. reflexivity.
Defined.





(** ** Clicks, the open dialog and the permissions *)

Lemma openModals_app h evs open :
  openModals (h ++ evs) open = openModals evs (openModals h open).
Proof.
  revert open. induction h as [|e h IH]; intros open; [reflexivity|].
  destruct e; simpl; apply IH.
Qed.

Lemma remove_only (key : string) : List.remove string_dec key [key] = [].
Proof. simpl. destruct (string_dec key key); [reflexivity | congruence]. Qed.

(** What a click does, case by case. *)
Lemma onClick_cases host message currentTime key this h :
  let clicked := LogInfo ("Button clicked for message "
                          ++ Message.id message)%string in
  let this1 := mkPlugin currentTime (currentModalKey this)
                 (cachedGuilds this) (lastGuildCount this) in
  onClick host message currentTime key this h =
    if (currentTime - lastClickTime this <? 250)%Z then
      (h ++ [clicked; LogInfo "Button on cooldown, ignoring click"],
       Normal this)
    else if JS.truthy_opt (currentModalKey this) then
      (h ++ [clicked; LogInfo "Modal already open, closing it";
             CloseModal (string_of_option (currentModalKey this))],
       Normal (mkPlugin currentTime None (cachedGuilds this)
                 (lastGuildCount this)))
    else if negb (hasAddReactionsPerms host (Message.channel_id message))
    then (h ++ [clicked; Notice ERROR_MESSAGES.NO_REACT_PERMISSION],
          Normal this1)
    else if negb (hasExternalEmojiPerms host (Message.channel_id message))
    then (h ++ [clicked; Notice ERROR_MESSAGES.NO_NITRO], Normal this1)
    else (h ++ [clicked; OpenModal key],
          Normal (mkPlugin currentTime (Some key) (cachedGuilds this)
                    (lastGuildCount this))).
Proof.
  intros clicked this1. unfold onClick, bind, emit, ret.
  fold clicked.
  destruct (currentTime - lastClickTime this <? 250)%Z;
    [rewrite <- app_assoc; reflexivity|].
  cbn [currentModalKey lastClickTime cachedGuilds lastGuildCount].
  destruct (JS.truthy_opt (currentModalKey this));
    [rewrite <- !app_assoc; reflexivity|].
  destruct (hasAddReactionsPerms host (Message.channel_id message));
    cbn [negb]; [|rewrite <- app_assoc; reflexivity].
  destruct (hasExternalEmojiPerms host (Message.channel_id message));
    cbn [negb]; rewrite <- app_assoc; reflexivity.
Qed.

Lemma perform_keeps_handle host a this h :
  (forall message currentTime key,
      a = Click message currentTime key -> JS.truthy key = true) ->
  (forall key, a = DialogCloses key -> In key (openModals h [])) ->
  handleMatches this h ->
  exists evs this',
    perform host a this h = (h ++ evs, Normal this')
    /\ handleMatches this' (h ++ evs).
Proof.
  intros Hkey Htimely [Hopen Hkeyed]. unfold handleMatches.
  destruct a as [message currentTime key|key|]; cbn [perform].
  - specialize (Hkey message currentTime key eq_refl).
    rewrite onClick_cases.
    destruct (currentTime - lastClickTime this <? 250)%Z.
    { eexists. eexists. split; [reflexivity|].
      rewrite openModals_app, Hopen. simpl. split; [reflexivity|].
      exact Hkeyed. }
    destruct (currentModalKey this) as [k|] eqn:Ek.
    + destruct Hkeyed as [Hn|Ht]; [discriminate|]. rewrite Ht.
      eexists. eexists. split; [reflexivity|].
      rewrite openModals_app, Hopen. simpl.
      destruct (string_dec k k); [|congruence].
      split; [reflexivity | left; reflexivity].
    + cbn [JS.truthy_opt].
      destruct (hasAddReactionsPerms host (Message.channel_id message));
        cbn [negb].
      * destruct (hasExternalEmojiPerms host (Message.channel_id message));
          cbn [negb]; eexists; eexists; (split; [reflexivity|]);
          rewrite openModals_app, Hopen; simpl.
        -- split; [reflexivity | right; exact Hkey].
        -- split; [reflexivity | left; reflexivity].
      * eexists. eexists. split; [reflexivity|].
        rewrite openModals_app, Hopen. simpl.
        split; [reflexivity | left; reflexivity].
  - specialize (Htimely key eq_refl). rewrite Hopen in Htimely.
    unfold closeDialog, bind, emit, ret.
    eexists. eexists. split; [reflexivity|].
    rewrite openModals_app, Hopen. simpl.
    destruct (currentModalKey this) as [k|]; [|destruct Htimely].
    destruct Htimely as [->|[]]. simpl.
    destruct (string_dec key key); [|congruence].
    split; [reflexivity | left; reflexivity].
  - unfold stop, bind, emit, ret.
    destruct (currentModalKey this) as [k|] eqn:Ek.
    + destruct Hkeyed as [Hn|Ht]; [discriminate|]. rewrite Ht.
      eexists. eexists. split; [rewrite <- app_assoc; reflexivity|].
      rewrite openModals_app, Hopen. simpl.
      destruct (string_dec k k); [|congruence].
      split; [reflexivity | left; reflexivity].
    + cbn [JS.truthy_opt]. eexists. eexists. split; [reflexivity|].
      rewrite openModals_app, Hopen, Ek. simpl.
      split; [reflexivity | left; reflexivity].
Qed.

(** X13.  As long as a dialog calls its [close] only while it is open,
    clicks never open a second dialog: starting with no dialog open,
    after any sequence of clicks, closings and stops of the plugin, with
    the keys of [openModal] non-empty, the history leaves open exactly
    the dialog whose key the plugin stores, and none when it stores
    none.  A [close] that arrives after its dialog was closed clears the
    handle of a newer dialog, and the next click opens a second one. *)
Theorem at_most_one_dialog_open :
  (forall host actions,
      Forall (fun key => JS.truthy key = true) (clickKeys actions) ->
      forall this h,
        currentModalKey this = None ->
        openModals h [] = [] ->
        timely host actions this h ->
        exists evs this',
          performAll host actions this h = (h ++ evs, Normal this')
          /\ openModals (h ++ evs) []
             = match currentModalKey this' with
               | Some key => [key]
               | None => []
               end)
  /\ exists evs this',
       performAll directMessagesHost
         [Click (Message.mk "7001" "8001") 1000 "modal-1";
          Click (Message.mk "7001" "8001") 2000 "modal-2";
          Click (Message.mk "7001" "8001") 3000 "modal-3";
          DialogCloses "modal-1";
          Click (Message.mk "7001" "8001") 4000 "modal-4"]
         freshPlugin []
       = (evs, Normal this')
       /\ openModals evs [] = ["modal-3"; "modal-4"]
       /\ currentModalKey this' = Some "modal-4".
Proof.
  split; [|eexists; eexists; split; [reflexivity | split; reflexivity]].
  intros host actions Hkeys this h Hnone Hopen Htimely.
  assert (Hinv : handleMatches this h)
    by (split; [rewrite Hnone; exact Hopen | left; exact Hnone]).
  clear Hnone Hopen.
  assert (Hgen : exists evs this',
             performAll host actions this h = (h ++ evs, Normal this')
             /\ handleMatches this' (h ++ evs)).
  { revert this h Hinv Htimely.
    induction actions as [|a actions IH]; intros this h Hinv Htimely.
    - exists [], this. rewrite app_nil_r. split; [reflexivity | exact Hinv].
    - assert (Ha : forall message currentTime key,
                 a = Click message currentTime key -> JS.truthy key = true).
      { intros message currentTime key ->. simpl in Hkeys.
        inversion Hkeys. assumption. }
      assert (Hrest : Forall (fun key => JS.truthy key = true)
                             (clickKeys actions)).
      { unfold clickKeys in *. simpl in Hkeys.
        apply Forall_app in Hkeys. apply Hkeys. }
      cbn [timely] in Htimely. destruct Htimely as [Hnow Hlater].
      assert (Hc : forall key,
                 a = DialogCloses key -> In key (openModals h []))
        by (intros key ->; exact Hnow).
      destruct (perform_keeps_handle host a this h Ha Hc Hinv)
        as [evs1 [this1 [Hrun1 Hinv1]]].
      rewrite Hrun1 in Hlater.
      destruct (IH Hrest this1 (h ++ evs1) Hinv1 Hlater)
        as [evs2 [this2 [Hrun2 Hinv2]]].
      exists (evs1 ++ evs2), this2. cbn [performAll]. unfold bind.
      rewrite Hrun1, Hrun2, app_assoc. split; [reflexivity | exact Hinv2]. }
  destruct Hgen as [evs [this' [Hrun [Hopen _]]]].
  exists evs, this'. split; assumption.
Qed.

Lemma at_most_one_dialog_open_witness :
  exists evs this',
    performAll directMessagesHost
      [Click (Message.mk "7001" "8001") 1000 "modal-1";
       DialogCloses "modal-1";
       Click (Message.mk "7001" "8002") 2000 "modal-2";
       Click (Message.mk "7001" "8002") 3000 "modal-3";
       Stop] freshPlugin []
    = ([] ++ evs, Normal this')
    /\ openModals ([] ++ evs) []
       = match currentModalKey this' with
         | Some key => [key]
         | None => []
         end.
Proof.
  apply (proj1 at_most_one_dialog_open).
  - repeat constructor.
  - reflexivity.
  - reflexivity.
  - cbv. intuition.
Defined.

(** X14.  The debounce: once a click has been accepted (it came at least
    250ms after the last accepted one), a click less than 250ms after it
    is dropped: it is logged and changes neither the plugin state nor
    the dialog. *)
Theorem second_click_within_250ms_is_dropped
    host message1 message2 t1 t2 key1 key2 this h h1 this1 :
  (250 <= t1 - lastClickTime this)%Z ->
  onClick host message1 t1 key1 this h = (h1, Normal this1) ->
  (t2 - t1 < 250)%Z ->
  onClick host message2 t2 key2 this1 h1
  = (h1 ++ [LogInfo ("Button clicked for message "
                     ++ Message.id message2)%string;
            LogInfo "Button on cooldown, ignoring click"],
     Normal this1).
Proof.
  intros Hacc Hrun Hsoon.
  assert (Hlast : lastClickTime this1 = t1).
  { rewrite onClick_cases in Hrun.
    destruct (Z.ltb_spec (t1 - lastClickTime this) 250); [lia|].
    destruct (JS.truthy_opt (currentModalKey this));
      [injection Hrun as _ <-; reflexivity|].
    destruct (negb (hasAddReactionsPerms host (Message.channel_id message1)));
      [injection Hrun as _ <-; reflexivity|].
    destruct (negb (hasExternalEmojiPerms host
                      (Message.channel_id message1)));
      injection Hrun as _ <-; reflexivity. }
  rewrite onClick_cases, Hlast.
  destruct (Z.ltb_spec (t2 - t1) 250); [reflexivity | lia].
Qed.

Lemma second_click_within_250ms_is_dropped_witness :
  onClick directMessagesHost (Message.mk "7001" "8001") 1100 "modal-2"
    (mkPlugin 1000 (Some "modal-1") [] 0)
    [LogInfo "Button clicked for message 8001"; OpenModal "modal-1"]
  = ([LogInfo "Button clicked for message 8001"; OpenModal "modal-1"]
     ++ [LogInfo "Button clicked for message 8001";
         LogInfo "Button on cooldown, ignoring click"],
     Normal (mkPlugin 1000 (Some "modal-1") [] 0)).
Proof.
  apply (second_click_within_250ms_is_dropped directMessagesHost
           (Message.mk "7001" "8001") (Message.mk "7001" "8001")
           1000 1100 "modal-1" "modal-2" freshPlugin []).
  - simpl. lia.
  - reflexivity.
  - lia.
Defined.

(** X15.  The dialog opens only with both permissions.  Whatever a click
    does, it opens a dialog only if the user may add reactions and may
    use external emojis in the channel of the message; and in a channel
    the store resolves to a channel that is not private and in which the
    permission store denies reactions, the button is not rendered and an
    accepted click with no dialog open shows the notice and opens
    nothing. *)
Theorem dialog_opens_only_with_both_permissions host message :
  (forall currentTime key this h,
      exists evs this',
        onClick host message currentTime key this h
        = (h ++ evs, Normal this')
        /\ (forall key', In (OpenModal key') evs ->
              hasAddReactionsPerms host (Message.channel_id message) = true
              /\ hasExternalEmojiPerms host (Message.channel_id message)
                 = true))
  /\ (forall channel,
         ChannelStore_getChannel host (Message.channel_id message)
         = Some channel ->
         Channel.isPrivate channel = false ->
         PermissionStore_can host (ADD_REACTIONS host) channel = false ->
         renderMessagePopoverButton host message = None
         /\ forall currentTime key this h,
              (250 <= currentTime - lastClickTime this)%Z ->
              JS.truthy_opt (currentModalKey this) = false ->
              onClick host message currentTime key this h
              = (h ++ [LogInfo ("Button clicked for message "
                                ++ Message.id message)%string;
                       Notice ERROR_MESSAGES.NO_REACT_PERMISSION],
                 Normal (mkPlugin currentTime (currentModalKey this)
                           (cachedGuilds this) (lastGuildCount this)))).
Proof.
  split.
  - intros currentTime key this h. rewrite onClick_cases.
    destruct (currentTime - lastClickTime this <? 250)%Z;
      [eexists; eexists; split; [reflexivity|];
       intros key' [H|[H|[]]]; discriminate H|].
    destruct (JS.truthy_opt (currentModalKey this));
      [eexists; eexists; split; [reflexivity|];
       intros key' [H|[H|[H|[]]]]; discriminate H|].
    destruct (hasAddReactionsPerms host (Message.channel_id message));
      cbn [negb];
      [|eexists; eexists; split; [reflexivity|];
        intros key' [H|[H|[]]]; discriminate H].
    destruct (hasExternalEmojiPerms host (Message.channel_id message));
      cbn [negb];
      [|eexists; eexists; split; [reflexivity|];
        intros key' [H|[H|[]]]; discriminate H].
    eexists. eexists. split; [reflexivity|]. intros key' _.
    split; reflexivity.
  - intros channel Hch Hpub Hdeny.
    assert (Hperm : hasAddReactionsPerms host (Message.channel_id message)
                    = false).
    { unfold hasAddReactionsPerms, hasPermission.
      rewrite Hch, Hpub. exact Hdeny. }
    split.
    + unfold renderMessagePopoverButton. rewrite Hperm. reflexivity.
    + intros currentTime key this h Htime Hkey.
      rewrite onClick_cases, Hkey, Hperm.
      destruct (Z.ltb_spec (currentTime - lastClickTime this) 250);
        [lia | reflexivity].
Qed.

Lemma dialog_opens_only_with_both_permissions_witness :
  renderMessagePopoverButton lockedChannelHost (Message.mk "7002" "8003")
  = None
  /\ forall currentTime key this h,
       (250 <= currentTime - lastClickTime this)%Z ->
       JS.truthy_opt (currentModalKey this) = false ->
       onClick lockedChannelHost (Message.mk "7002" "8003")
         currentTime key this h
       = (h ++ [LogInfo "Button clicked for message 8003";
                Notice ERROR_MESSAGES.NO_REACT_PERMISSION],
          Normal (mkPlugin currentTime (currentModalKey this)
                    (cachedGuilds this) (lastGuildCount this))).
Proof.
  apply (proj2 (dialog_opens_only_with_both_permissions lockedChannelHost
                  (Message.mk "7002" "8003"))
               (Channel.mk "7002" false));
    reflexivity.
Defined.

(** ** The dialog *)

Lemma chars_app a b :
  JS.chars (a ++ b)%string = JS.chars a ++ JS.chars b.
Proof.
  induction a as [|x a IH]; simpl; [reflexivity|].
  unfold JS.chars in *. simpl. rewrite IH. reflexivity.
Qed.

Lemma blank_toUpperCase_char c :
  forallb JS.isWhiteSpace (JS.chars (JS.toUpperCase_char c))
  = JS.isWhiteSpace c.
Proof. destruct c as [[] [] [] [] [] [] [] []]; reflexivity. Qed.

(** Upper-casing keeps a text blank or not blank. *)
Lemma blank_toUpperCase s : blank (JS.toUpperCase s) = blank s.
Proof.
  unfold blank. induction s as [|c s IH]; [reflexivity|].
  cbn [JS.toUpperCase].
  rewrite chars_app, forallb_app, blank_toUpperCase_char, IH.
  reflexivity.
Qed.

Lemma not_blank_not_empty_error guilds input :
  blank input = false ->
  validateText guilds input <> Some ERROR_MESSAGES.EMPTY_TEXT.
Proof.
  intros Hb. rewrite validateText_rules, Hb.
  destruct (20 <? String.length input); [discriminate|].
  destruct (negb (forallb permitted (JS.chars input))); [discriminate|].
  destruct (someExceeds 6 input); [discriminate|].
  destruct (someExceeds (List.length guilds) input); [|discriminate].
  unfold spaceCountError.
  destruct (exceeding (List.length guilds) input) as [|a [|b l]];
    discriminate.
Qed.

(** X16.  The Confirm button is enabled only on a text that is not blank,
    while nothing is loading or processing; so a run started from the
    button never ends in the empty-text error, and after Clear the button
    is disabled. *)
Theorem confirm_never_submits_blank_text :
  (forall st,
      confirmDisabled st = false ->
      Dialog.processing st = false
      /\ Dialog.loading st = false
      /\ blank (Dialog.text st) = false
      /\ validateText (Dialog.guilds st) (JS.toUpperCase (Dialog.text st))
         <> Some ERROR_MESSAGES.EMPTY_TEXT)
  /\ (forall st, confirmDisabled (handleClear st) = true).
Proof.
  split.
  - intros st H. unfold confirmDisabled in H.
    apply orb_false_elim in H. destruct H as [H Ht].
    apply orb_false_elim in H. destruct H as [Hp Hl].
    rewrite truthy_trim, negb_involutive in Ht.
    repeat split; try assumption.
    apply not_blank_not_empty_error. rewrite blank_toUpperCase. exact Ht.
  - intros st. unfold confirmDisabled, handleClear. simpl.
    rewrite !orb_true_r. reflexivity.
Qed.

Lemma confirm_never_submits_blank_text_witness :
  validateText twoSpaces (JS.toUpperCase "hi")
  <> Some ERROR_MESSAGES.EMPTY_TEXT.
Proof.
  apply (proj1 confirm_never_submits_blank_text
               (Dialog.mk "hi" "" false twoSpaces false)).
  reflexivity.
Defined.

(** Every directory lookup completes normally and emits requests and log
    lines only. *)
Lemma getUserGuilds_run net currentGuildCount this h :
  exists evs r this',
    getUserGuilds net currentGuildCount this h
    = (h ++ evs, Normal (r, this'))
    /\ forallb isLookupEvent evs = true.
Proof.
  destruct ((0 <? List.length (cachedGuilds this))
            && (currentGuildCount =? lastGuildCount this)) eqn:Ehit.
  - unfold getUserGuilds. rewrite Ehit. unfold bind, emit, ret.
    eexists. eexists. eexists. split; reflexivity.
  - destruct (getUserGuilds_refetch net currentGuildCount this h Ehit)
      as [evs [r [Hrun [_ [_ Hk]]]]].
    eexists. eexists. eexists. split; eassumption.
Qed.

(** X17.  Loading the spaces when the dialog mounts has two outcomes when
    the plugin is registered, and neither is the generic loading error:
    the lookup always completes, and either it returned spaces, which
    become the dialog's spaces with the loading flag cleared and the
    dialog left open, or it returned none, and the dialog shows the
    join-the-servers notice and closes.  Only requests and log lines
    precede either. *)
Theorem dialog_load_outcomes net this currentGuildCount st h :
  exists evs r this',
    getUserGuilds net currentGuildCount this h
    = (h ++ evs, Normal (r, this'))
    /\ forallb isLookupEvent evs = true
    /\ fetchGuilds net (Some this) currentGuildCount st h
       = match r with
         | [] =>
             (h ++ evs ++ [Notice ERROR_MESSAGES.NOT_IN_SERVER; Close],
              Normal (withLoading false st, Some this'))
         | _ :: _ =>
             (h ++ evs, Normal (withGuilds r st, Some this'))
         end.
Proof.
  destruct (getUserGuilds_run net currentGuildCount this h)
    as [evs [r [this' [Hrun Hk]]]].
  exists evs, r, this'. split; [exact Hrun|]. split; [exact Hk|].
  unfold fetchGuilds, try_catch, bind. rewrite Hrun.
  destruct r as [|a r]; cbn [fst snd List.length Nat.ltb Nat.leb].
  - unfold emit, ret. rewrite <- !app_assoc. reflexivity.
  - reflexivity.
Qed.

(** ** Spelling *)

Lemma planSpec_chars_complete spaces cs :
  spaces <> [] ->
  (forall guild c,
      In guild spaces -> In c cs ->
      findEmoji guild (lookup EMOJI_TEXT_MAPPING (JS.str c)) <> None) ->
  map Directive.char (planSpec spaces cs) = cs.
Proof.
  intros Hne. induction cs as [|c cs IH] using rev_ind; intros Hall;
    [reflexivity|].
  rewrite planSpec_snoc, map_app, IH
    by (intros guild c' Hg Hc; apply Hall;
        [exact Hg | apply in_or_app; left; exact Hc]).
  f_equal. unfold directiveFor.
  destruct (at_index_clamped spaces (occurrences c cs) Hne)
    as [_ [guild [Hnth _]]].
  rewrite Hnth.
  destruct (findEmoji guild (lookup EMOJI_TEXT_MAPPING (JS.str c)))
    as [e|] eqn:Ef; [reflexivity|].
  exfalso. apply (Hall guild c); [|apply in_or_app; right; left; reflexivity|exact Ef].
  eapply nth_error_In. exact Hnth.
Qed.

(** X18.  When every space holds the emoji of every character of the
    text, the run of an accepted text reacts to every character: the
    characters of its directives, in order, spell the upper-cased text,
    and it sends one request per character and warns about none. *)
Theorem run_spells_the_text net message guilds text h :
  validateText guilds (JS.toUpperCase text) = None ->
  (forall guild c,
      In guild guilds -> In c (JS.chars (JS.toUpperCase text)) ->
      findEmoji guild (lookup EMOJI_TEXT_MAPPING (JS.str c)) <> None) ->
  exists evs st,
    assignAndDispatch net message guilds (JS.toUpperCase text) h
    = (h ++ evs, Normal st)
    /\ map Directive.char (planned st) = JS.chars (JS.toUpperCase text)
    /\ List.length (requests evs) = String.length (JS.toUpperCase text)
    /\ filter isMissingWarning evs = [].
Proof.
  intros Hv Hall. unfold assignAndDispatch.
  pose proof (sortGuilds_nonempty guilds (validated_spaces _ _ Hv)) as Hne.
  destruct (loop_run net message (sortGuilds guilds)
              (JS.chars (JS.toUpperCase text)) h Hne)
    as [st [evs [Hloop [[_ [Hplan _]] [_ [Hr _]]]]]].
  destruct (loop_account net message (sortGuilds guilds)
              (JS.chars (JS.toUpperCase text)) h Hne)
    as [st' [evs' [Hloop' [_ Hn]]]].
  rewrite Hloop in Hloop'. injection Hloop' as Hevs Hst.
  apply app_inv_head in Hevs. subst st' evs'.
  assert (Hchars : map Directive.char (planned st)
                   = JS.chars (JS.toUpperCase text)).
  { rewrite Hplan. apply planSpec_chars_complete; [exact Hne|].
    intros guild c Hg Hc. apply Hall; [|exact Hc].
    apply sortGuilds_In. exact Hg. }
  assert (Hlen : List.length (planned st)
                 = String.length (JS.toUpperCase text)).
  { rewrite <- length_chars, <- Hchars, length_map. reflexivity. }
  exists evs, st. split; [exact Hloop|]. split; [exact Hchars|].
  split.
  - rewrite Hr, length_map. exact Hlen.
  - rewrite length_chars in Hn.
    destruct (filter isMissingWarning evs); [reflexivity|].
    simpl in Hn. lia.
Qed.

Lemma run_spells_the_text_witness :
  exists evs st,
    assignAndDispatch unreachable someMessage twoSpaces
      (JS.toUpperCase "hi") []
    = ([] ++ evs, Normal st)
    /\ map Directive.char (planned st) = JS.chars (JS.toUpperCase "hi")
    /\ List.length (requests evs) = String.length (JS.toUpperCase "hi")
    /\ filter isMissingWarning evs = [].
Proof.
  apply (run_spells_the_text unreachable someMessage twoSpaces "hi" []).
  - reflexivity.
  - intros guild c Hg Hc. simpl in Hg, Hc.
    destruct Hg as [<-|[<-|[]]]; destruct Hc as [<-|[<-|[]]];
      discriminate.
Defined.

(** ** More spaces *)

(** X19.  Joining more spaces never turns an accepted text into a
    rejected one, and with six spaces or more the count of spaces no
    longer matters: the verdict is that of the first four checks, and the
    error that asks to join more servers cannot occur. *)
Theorem more_spaces_never_hurt :
  (forall guilds guilds' input,
      List.length guilds <= List.length guilds' ->
      validateText guilds input = None ->
      validateText guilds' input = None)
  /\ (forall guilds input,
         6 <= List.length guilds ->
         validateText guilds input =
           if blank input then Some ERROR_MESSAGES.EMPTY_TEXT
           else if 20 <? String.length input
           then Some ERROR_MESSAGES.TOO_MANY_CHARS_TOTAL
           else if negb (forallb permitted (JS.chars input))
           then Some ERROR_MESSAGES.INVALID_CHAR
           else if someExceeds 6 input
           then Some ERROR_MESSAGES.TOO_MANY_CHARS
           else None).
Proof.
  split.
  - intros guilds guilds' input Hle Hv.
    apply validateText_None_iff in Hv.
    destruct Hv as [Hb [Hlen [Hperm Hcount]]].
    apply validateText_None_iff. repeat split; try assumption.
    intros c. specialize (Hcount c). lia.
  - intros guilds input H6. rewrite validateText_rules.
    destruct (blank input); [reflexivity|].
    destruct (20 <? String.length input); [reflexivity|].
    destruct (negb (forallb permitted (JS.chars input))); [reflexivity|].
    destruct (someExceeds 6 input) eqn:E6; [reflexivity|].
    destruct (someExceeds (List.length guilds) input) eqn:Ek;
      [|reflexivity].
    apply someExceeds_true in Ek. destruct Ek as [c Hc].
    assert (someExceeds 6 input = true)
      by (apply someExceeds_true; exists c; lia).
    congruence.
Qed.

Lemma more_spaces_never_hurt_witness :
  validateText sixSpaces "HH" = None.
Proof.
  apply (proj1 more_spaces_never_hurt twoSpaces sixSpaces "HH").
  - simpl. lia.
  - reflexivity.
Defined.
